(** * Lamport distributed mutual exclusion middleware ([dme.py])

    A shallow embedding of class [LamportDME]: the logical clock, the request
    queue (a [queue.PriorityQueue], that is a binary heap kept in a Python
    list by [heapq]), the per-connection body of the listener, the peer
    communicator and the two public operations
    [request_critical_section] / [release_critical_section].

    Integers are Python's unbounded integers ([Z]); node ids are strings;
    the outstanding replies are a finite set of strings.  The threads of a
    node (the listener and the caller) are interleaved at the grain of one
    served connection and one turn of the caller's waiting loop.  What the
    network and the wall clock do is an input of the methods that use them:
    the outcome of each connection to a peer, the connections the listener
    serves while the caller waits, the readings of [time.time()]. *)

From stdpp Require Import base numbers list sorting gmap strings.
From Stdlib Require Import ZArith QArith Lia.

Set Default Proof Using "Type".
Set Warnings "-clear-no-such-hyp".
Open Scope Z_scope.

(** ** Request records and their order *)

(** A queue item is the Python tuple [(timestamp, node_id)]. *)
Definition item : Type := Z * string.

(** Python's [<] on two such tuples: the first components decide unless they
    are equal, then the strings are compared lexicographically, character
    code by character code. *)
Definition item_ltb (a b : item) : bool :=
  if a.1 =? b.1 then String.ltb a.2 b.2 else a.1 <? b.1.

(** [item_le a b] is "not [b < a]", the relation a heap maintains between a
    parent and its child. *)
Definition item_le (a b : item) : Prop := item_ltb b a = false.

(** ** [heapq]: a binary heap stored in a list *)

Module heapq.

(** [(pos - 1) >> 1], the position above [pos] *)
Definition parent (pos : nat) : nat := Nat.shiftr (pos - 1) 1.
Global Arguments parent : simpl never.

(** [_siftdown(heap, startpos, pos)]: the loop, with [newitem] already read
    from [heap[pos]].  [fuel] bounds the number of iterations; [pos]
    strictly decreases, so [fuel = pos] is never exhausted before the loop
    condition fails. *)
Fixpoint _siftdown_loop (fuel : nat) (heap : list item) (startpos pos : nat)
    (newitem : item) : list item :=
  match fuel with
  | O => <[pos := newitem]> heap
  | S fuel' =>
      if (startpos <? pos)%nat then
        let parentpos := parent pos in
        match heap !! parentpos with
        | Some parent =>
            if item_ltb newitem parent
            then _siftdown_loop fuel' (<[pos := parent]> heap) startpos parentpos newitem
            else <[pos := newitem]> heap
        | None => <[pos := newitem]> heap
        end
      else <[pos := newitem]> heap
  end.

Definition _siftdown (heap : list item) (startpos pos : nat) : list item :=
  match heap !! pos with
  | Some newitem => _siftdown_loop pos heap startpos pos newitem
  | None => heap
  end.

(** [heappush(heap, item)]: append, then sift the new leaf towards the root. *)
Definition heappush (heap : list item) (it : item) : list item :=
  _siftdown (heap ++ [it]) 0 (length heap).

(** [heap[i] < heap[j]] for two positions inside the list. *)
Definition lt_at (heap : list item) (i j : nat) : bool :=
  match heap !! i, heap !! j with
  | Some a, Some b => item_ltb a b
  | _, _ => false
  end.

(** [_siftup(heap, pos)]: the loop that moves the smaller child up until a
    leaf is reached; returns the list and the final position of the hole.
    [childpos] strictly increases and stays below [endpos], so
    [fuel = endpos] is enough. *)
Fixpoint _siftup_loop (fuel : nat) (heap : list item) (endpos pos : nat)
    : list item * nat :=
  match fuel with
  | O => (heap, pos)
  | S fuel' =>
      let childpos := (2 * pos + 1)%nat in
      if (childpos <? endpos)%nat then
        let rightpos := (childpos + 1)%nat in
        let childpos :=
          if (rightpos <? endpos)%nat && negb (lt_at heap childpos rightpos)
          then rightpos else childpos in
        match heap !! childpos with
        | Some c => _siftup_loop fuel' (<[pos := c]> heap) endpos childpos
        | None => (heap, pos)
        end
      else (heap, pos)
  end.

Definition _siftup (heap : list item) (pos : nat) : list item :=
  match heap !! pos with
  | Some newitem =>
      let '(heap', pos') := _siftup_loop (length heap) heap (length heap) pos in
      _siftdown (<[pos' := newitem]> heap') pos pos'
  | None => heap
  end.

(** [heappop(heap)]: [None] stands for the [IndexError] of popping an empty
    list. *)
Definition heappop (heap : list item) : option (item * list item) :=
  match last heap with
  | None => None
  | Some lastelt =>
      let heap := take (length heap - 1) heap in
      match heap with
      | [] => Some (lastelt, [])
      | returnitem :: _ =>
          Some (returnitem, _siftup (<[0%nat := lastelt]> heap) 0)
      end
  end.

End heapq.

Abbreviation parent := heapq.parent.

(** ** [queue.PriorityQueue] *)

(** The queue object of the standard library (unbounded: [maxsize = 0]):
    the heap list [queue] with [put] = [heappush], [get] = [heappop] and
    [empty] = "the list has no element".  [get] on an empty queue blocks;
    the program only calls it behind [empty()], and [None] stands for the
    blocked call. *)
Module PriorityQueue.

Definition empty (queue : list item) : bool :=
  match queue with [] => true | _ => false end.

Definition put (queue : list item) (it : item) : list item :=
  heapq.heappush queue it.

Definition get (queue : list item) : option (item * list item) :=
  heapq.heappop queue.

End PriorityQueue.

(** ** Messages *)

(** A decoded JSON object, restricted to the keys the protocol reads or
    writes and to the value types of the protocol grammar (integer
    timestamps, string node ids).  [None] is an absent key; an object
    holding [null] or a value of another type under one of these keys is
    not of this type, and what is proved of messages is proved of the
    objects of the grammar only. *)
Record message := Message {
  msg_type : option string;
  msg_timestamp : option Z;
  msg_node_id : option string;
  msg_status : option string;
  msg_message : option string;
}.

Global Instance message_eq_dec : EqDecision message.
Proof. solve_decision. Defined.

(** [{"type": typ, "timestamp": ts, "node_id": nid}] *)
Definition protocol_msg (typ : string) (ts : Z) (nid : string) : message :=
  Message (Some typ) (Some ts) (Some nid) None None.

(** [{"type": "ACK"}] *)
Definition ack_msg : message := Message (Some "ACK") None None None None.

(** [{"status": "ERR", "message": "unknown type"}] *)
Definition err_msg : message :=
  Message None None None (Some "ERR") (Some "unknown type").

(** What [conn.recv(65536).decode()] followed by [json.loads] yields on one
    inbound connection: no data, something that is not the text of a JSON
    object (the listener raises and goes on), or a decoded object. *)
Inductive received :=
  | NoData
  | Undecodable
  | Decoded (msg : message).

(** ** Node state *)

Record peer := Peer {
  peer_host : string;
  peer_port : Z;
  peer_id : string;
}.

(** The fields of a [LamportDME] object.  [lock] carries no data.  The
    operations below are written as single steps; what a caller can read
    while the listener is inside [_remove_request], which takes no lock,
    is [queue_during]. *)
Record node := Node {
  my_id : string;
  my_port : Z;
  peers : list peer;
  clock : Z;
  replies_needed : gset string;
  replies_event : bool;
  request_queue : list item;
}.

(** [LamportDME.__init__] *)
Definition init (my_id : string) (my_port : Z) (peers : list peer) : node :=
  Node my_id my_port peers 0 ∅ false [].

Definition set_clock (c : Z) (st : node) : node :=
  Node (my_id st) (my_port st) (peers st) c (replies_needed st)
       (replies_event st) (request_queue st).

Definition set_replies_needed (r : gset string) (st : node) : node :=
  Node (my_id st) (my_port st) (peers st) (clock st) r
       (replies_event st) (request_queue st).

Definition set_replies_event (b : bool) (st : node) : node :=
  Node (my_id st) (my_port st) (peers st) (clock st) (replies_needed st)
       b (request_queue st).

Definition set_request_queue (q : list item) (st : node) : node :=
  Node (my_id st) (my_port st) (peers st) (clock st) (replies_needed st)
       (replies_event st) q.

(** ** A state monad with Python exceptions *)

Inductive exn := KeyError | OSError.

Inductive result (A : Type) :=
  | Ok (a : A)
  | Raise (e : exn).
Global Arguments Ok {A} a.
Global Arguments Raise {A} e.

(** A method of the object: from the current fields, a returned value or a
    raised exception, and the fields as the method leaves them. *)
Definition M (A : Type) : Type := node -> result A * node.

Definition ret {A} (a : A) : M A := fun st => (Ok a, st).

Definition bind {A B} (m : M A) (k : A -> M B) : M B :=
  fun st =>
    match m st with
    | (Ok a, st') => k a st'
    | (Raise e, st') => (Raise e, st')
    end.

Definition raise {A} (e : exn) : M A := fun st => (Raise e, st).

(** [try: body  except Exception: handler] *)
Definition try_except {A} (body : M A) (handler : exn -> M A) : M A :=
  fun st =>
    match body st with
    | (Ok a, st') => (Ok a, st')
    | (Raise e, st') => handler e st'
    end.

Definition gets {A} (f : node -> A) : M A := fun st => (Ok (f st), st).

Definition modify (f : node -> node) : M unit := fun st => (Ok tt, f st).

Declare Scope dme_scope.
Delimit Scope dme_scope with dme.
Notation "x <- c ;; k" := (bind c (fun x => k))
  (at level 100, c at next level, right associativity) : dme_scope.
Notation "c ;; k" := (bind c (fun _ => k))
  (at level 100, right associativity) : dme_scope.
Open Scope dme_scope.

(** [for x in l: body(x)] *)
Fixpoint for_each {A} (l : list A) (body : A -> M unit) : M unit :=
  match l with
  | [] => ret tt
  | x :: l' => body x ;; for_each l' body
  end.

(** [d[key]] on a decoded object: [KeyError] when the key is absent. *)
Definition getitem {A} (field : option A) : M A :=
  match field with
  | Some v => ret v
  | None => raise KeyError
  end.

(** ** [LamportDME] methods *)

(** [_increment_clock(other_ts=None)] *)
Definition _increment_clock (other_ts : option Z) : M Z :=
  fun st =>
    let c := match other_ts with
             | None => clock st + 1
             | Some ts => Z.max (clock st) ts + 1
             end in
    (Ok c, set_clock c st).

(** [self.request_queue.put(it)] *)
Definition queue_put (it : item) : M unit :=
  modify (fun st => set_request_queue (PriorityQueue.put (request_queue st) it) st).

(** [while not self.request_queue.empty(): items.append(self.request_queue.get())]:
    the items in the order they are taken out, and what is left of the
    queue.  Every [get] shortens the list by one, so [fuel = length queue]
    empties it. *)
Fixpoint drain (fuel : nat) (queue : list item) : list item * list item :=
  match fuel with
  | O => ([], queue)
  | S fuel' =>
      if PriorityQueue.empty queue then ([], queue)
      else match PriorityQueue.get queue with
           | Some (it, queue') =>
               let '(items, rest) := drain fuel' queue' in (it :: items, rest)
           | None => ([], queue)
           end
  end.

(** The effect of [_remove_request] on the queue object: take everything
    out, keep the items with [it[1] != nid], put them back. *)
Definition rebuild_without (nid : string) (queue : list item) : list item :=
  let '(items, rest) := drain (length queue) queue in
  let items := filter (fun it : item => it.2 ≠ nid) items in
  foldl PriorityQueue.put rest items.

(** [_remove_request(nid, ts)]; the body never reads [ts]. *)
Definition _remove_request (nid : string) (ts : Z) : M unit :=
  modify (fun st => set_request_queue (rebuild_without nid (request_queue st)) st).

(** The [REPLY] branch's update under the lock. *)
Definition mark_reply (nid : string) (st : node) : node :=
  if decide (nid ∈ replies_needed st) then
    let r := replies_needed st ∖ {[nid]} in
    let st := set_replies_needed r st in
    if decide (r = ∅) then set_replies_event true st else st
  else st.

(** The body of the listener loop for one decoded message: the result is
    the object written back with [conn.sendall]. *)
Definition handle_message (msg : message) : M message :=
  let typ := msg_type msg in
  if decide (typ = Some "REQUEST") then
    ts <- getitem (msg_timestamp msg) ;;
    nid <- getitem (msg_node_id msg) ;;
    _increment_clock (Some ts) ;;
    queue_put (ts, nid) ;;
    rts <- _increment_clock None ;;
    me <- gets my_id ;;
    ret (protocol_msg "REPLY" rts me)
  else if decide (typ = Some "RELEASE") then
    ts <- getitem (msg_timestamp msg) ;;
    nid <- getitem (msg_node_id msg) ;;
    _increment_clock (Some ts) ;;
    _remove_request nid ts ;;
    ret ack_msg
  else if decide (typ = Some "REPLY") then
    ts <- getitem (msg_timestamp msg) ;;
    nid <- getitem (msg_node_id msg) ;;
    _increment_clock (Some ts) ;;
    modify (mark_reply nid) ;;
    ret ack_msg
  else ret err_msg.

(** One turn of [while self.running]: what is sent back on the connection
    ([None]: nothing), and the fields afterwards.  An exception is caught
    and the loop continues. *)
Definition serve (r : received) (st : node) : option message * node :=
  match r with
  | NoData => (None, st)
  | Undecodable => (None, st)
  | Decoded msg =>
      match handle_message msg st with
      | (Ok resp, st') => (Some resp, st')
      | (Raise _, st') => (None, st')
      end
  end.

(** [_listener] over the connections accepted one after the other. *)
Fixpoint _listener (conns : list received) (st : node) : list (option message) * node :=
  match conns with
  | [] => ([], st)
  | r :: conns' =>
      let '(sent, st') := serve r st in
      let '(sents, st'') := _listener conns' st' in
      (sent :: sents, st'')
  end.

(** What one connection to a peer turns into: an exception anywhere in the
    [try] block (refused, timed out, reset, undecodable answer), an answer,
    or an orderly close without data. *)
Inductive exchange :=
  | Failed
  | Answered (resp : message)
  | Silent.

Definition network : Type := peer -> message -> exchange.

(** [_send_to_peer(peer, msg, expect_response)] *)
Definition _send_to_peer (net : network) (p : peer) (msg : message)
    (expect_response : bool) : M (option message) :=
  try_except
    (match net p msg with
     | Failed => raise OSError
     | Answered resp => if expect_response then ret (Some resp) else ret None
     | Silent => ret None
     end)
    (fun _ =>
       modify (fun st => set_replies_needed (replies_needed st ∖ {[peer_id p]}) st) ;;
       ret None).

(** [self.request_queue.queue[0]] behind [not self.request_queue.empty()] *)
Definition peek_head (queue : list item) : option item :=
  if PriorityQueue.empty queue then None else queue !! 0%nat.

(** [head_id == self.my_id and head_ts == ts] *)
Definition head_is (queue : list item) (ts : Z) (me : string) : bool :=
  match peek_head queue with
  | Some (head_ts, head_id) => String.eqb head_id me && (head_ts =? ts)
  | None => false
  end.

(** What the waiting caller meets in one turn of its [while True] loop: the
    connections the listener thread served since the previous turn, the
    reading of [time.time()] in the timeout test, and the reading that
    restarts the window. *)
Record wait_env := WaitEnv {
  arrived : list received;
  now : Q;
  restart : Q;
}.

(** [time.time() - start > 10] on exact readings.  The program subtracts
    floats, and the rounded difference can be 10.0 where the exact one is
    above 10; where the program's test succeeds this one does too. *)
Definition window_elapsed (start now : Q) : bool :=
  negb (Qle_bool (now - start) 10).

(** The [while True] loop of [request_critical_section]; [None] when the
    caller is still waiting after the last described turn.  The sleep of a
    tenth of a second while the event is not set changes no field. *)
Fixpoint wait_loop (ts : Z) (start : Q) (envs : list wait_env) : M (option Z) :=
  match envs with
  | [] => ret None
  | env :: envs' =>
      modify (fun st => (_listener (arrived env) st).2) ;;
      have_all_replies <- gets (fun st => bool_decide (replies_needed st = ∅)) ;;
      head_ok <- gets (fun st => head_is (request_queue st) ts (my_id st)) ;;
      if have_all_replies && head_ok then
        modify (set_replies_event false) ;;
        ret (Some ts)
      else if window_elapsed start (now env) then
        head_ok <- gets (fun st => head_is (request_queue st) ts (my_id st)) ;;
        if head_ok then
          modify (set_replies_event false) ;;
          ret (Some ts)
        else wait_loop ts (restart env) envs'
      else wait_loop ts start envs'
  end.

(** The broadcast of [msg] to every peer, answers discarded. *)
Definition broadcast (net : network) (msg : message) : M unit :=
  ps <- gets peers ;;
  for_each ps (fun p => _send_to_peer net p msg true ;; ret tt).

(** [request_critical_section()] *)
Definition request_critical_section (net : network) (start : Q)
    (envs : list wait_env) : M (option Z) :=
  ts <- _increment_clock None ;;
  me <- gets my_id ;;
  queue_put (ts, me) ;;
  modify (fun st => set_replies_needed (list_to_set (peer_id <$> peers st)) st) ;;
  broadcast net (protocol_msg "REQUEST" ts me) ;;
  wait_loop ts start envs.

(** [release_critical_section(ts)] *)
Definition release_critical_section (net : network) (ts : Z) : M unit :=
  me <- gets my_id ;;
  _remove_request me ts ;;
  rts <- _increment_clock None ;;
  broadcast net (protocol_msg "RELEASE" rts me).

(** The network seen from one node when the other nodes run this same
    program: [world nid] is the peer's object if its listener is up.  A
    peer that is down refuses the connection; a peer whose listener raises
    while serving keeps the connection open without answering, and the
    sender's [recv] times out. *)
Definition network_of (world : string -> option node) : network :=
  fun p msg =>
    match world (peer_id p) with
    | None => Failed
    | Some n =>
        match handle_message msg n with
        | (Ok resp, _) => Answered resp
        | (Raise _, _) => Failed
        end
    end.

(** ** The heap invariant *)

(** No element is smaller than its parent. *)
Definition is_heap (h : list item) : Prop :=
  forall i x p, (0 < i)%nat -> h !! i = Some x -> h !! parent i = Some p -> item_le p x.

(** The loop invariant of [_siftdown]: the list is a heap on every edge but
    the one above the hole at [pos]; [newitem] may go where the hole is
    without disturbing what is below; and what is below the hole agrees with
    what is above it. *)
Record sift_inv (h : list item) (pos : nat) (newitem : item) : Prop := SiftInv {
  sift_pos : (pos < length h)%nat;
  sift_edges : forall i x p, (0 < i)%nat -> i ≠ pos ->
    h !! i = Some x -> h !! parent i = Some p -> item_le p x;
  sift_hole : forall x, h !! pos = Some x -> item_le newitem x;
  sift_skip : forall c x g, (0 < pos)%nat -> (0 < c)%nat -> parent c = pos ->
    h !! c = Some x -> h !! parent pos = Some g -> item_le g x;
}.

(** The loop invariant of [_siftup]: the list is a heap on every edge that
    does not touch the hole at [pos], and what is below the hole agrees with
    what is above it. *)
Record siftup_inv (h : list item) (pos : nat) : Prop := SiftupInv {
  siftup_pos : (pos < length h)%nat;
  siftup_edges : forall i x p, (0 < i)%nat -> i ≠ pos -> parent i ≠ pos ->
    h !! i = Some x -> h !! parent i = Some p -> item_le p x;
  siftup_skip : forall c x g, (0 < pos)%nat -> (0 < c)%nat -> parent c = pos ->
    h !! c = Some x -> h !! parent pos = Some g -> item_le g x;
}.

(** The states of the queue object: it starts empty and the program only
    ever calls [put] and [get] on it (the latter inside [_remove_request]). *)
Inductive queue_reachable : list item -> Prop :=
  | reach_init : queue_reachable []
  | reach_put q it : queue_reachable q -> queue_reachable (PriorityQueue.put q it)
  | reach_get q it q' :
      queue_reachable q -> PriorityQueue.get q = Some (it, q') -> queue_reachable q'.

(** ** Vocabulary of the statements *)

(** The order of the request queue as the protocol describes it: timestamp
    ascending, ties broken by node id, lexicographically ascending. *)
Definition record_le (a b : item) : Prop :=
  a.1 < b.1 \/ (a.1 = b.1 /\ String.leb a.2 b.2 = true).

Global Instance exchange_eq_dec : EqDecision exchange.
Proof. solve_decision. Defined.

(** The ids of the peers of [ps] to which sending [msg] fails. *)
Definition failed_peers (net : network) (msg : message) (ps : list peer) : gset string :=
  list_to_set (peer_id <$> filter (fun p => net p msg = Failed) ps).

(** What any method leaves fixed or moves one way only. *)
Record steps_to (st st' : node) : Prop := StepsTo {
  same_id : my_id st' = my_id st;
  same_port : my_port st' = my_port st;
  same_peers : peers st' = peers st;
  clock_mono : clock st <= clock st';
  queue_reach : queue_reachable (request_queue st) -> queue_reachable (request_queue st');
}.

Definition sound {A} (m : M A) : Prop := forall st, steps_to st (m st).2.

(** The states of a node: constructed, then changed by the listener serving
    a connection and by the caller acquiring (possibly still waiting) or
    releasing, over any network. *)
Inductive node_reachable : node -> Prop :=
  | reach_node_init me port ps : node_reachable (init me port ps)
  | reach_node_serve st r :
      node_reachable st -> node_reachable (serve r st).2
  | reach_node_request st net start envs :
      node_reachable st ->
      node_reachable (request_critical_section net start envs st).2
  | reach_node_release st net ts :
      node_reachable st -> node_reachable (release_critical_section net ts st).2.

(** The connections a listener gets from peers running this program: they
    send [REQUEST] and [RELEASE] and nothing else. *)
Definition peer_traffic (r : received) : Prop :=
  match r with
  | Decoded msg => msg_type msg = Some "REQUEST" \/ msg_type msg = Some "RELEASE"
  | _ => True
  end.

(** ** Further vocabulary: steps and invariants of a node *)

(** One step of a node: the listener serves a connection, or the caller
    acquires (possibly still waiting) or releases. *)
Inductive node_step : node -> node -> Prop :=
  | step_serve st r : node_step st (serve r st).2
  | step_request st net start envs :
      node_step st (request_critical_section net start envs st).2
  | step_release st net ts : node_step st (release_critical_section net ts st).2.

(** No queued record carries a timestamp above the node's clock. *)
Definition queue_bounded (st : node) : Prop :=
  forall it, it ∈ request_queue st -> it.1 <= clock st.

(** A connection that is not a [RELEASE]. *)
Definition no_release (r : received) : Prop :=
  match r with
  | Decoded msg => msg_type msg ≠ Some "RELEASE"
  | _ => True
  end.

(** The connections on which the messages [REPLY(ts, nid)] of [rs] arrive. *)
Definition reply_conns (rs : list (Z * string)) : list received :=
  (fun r : Z * string => Decoded (protocol_msg "REPLY" r.1 r.2)) <$> rs.

(** ** [client.py]: start-up *)

(** What the command line configures. *)
Record config := Config {
  cfg_my_id : string;
  cfg_dme_port : Z;
  cfg_server_host : string;
  cfg_server_port : Z;
  cfg_peers : list peer;
}.

(** How the start of the program ends: the usage line and [sys.exit(1)], an
    uncaught [ValueError] of [int()], an uncaught [IndexError] of
    [sys.argv[...]], or a configuration. *)
Inductive startup :=
  | StartUsage
  | StartValueError
  | StartIndexError
  | Started (cfg : config).

(** The loop [while i < len(sys.argv)] over the arguments from index 5 on,
    three at a time.  [py_int] is Python's [int()] on a string, [None] when
    it raises. *)
Fixpoint parse_peers (py_int : string -> option Z) (args : list string)
    : startup + list peer :=
  match args with
  | [] => inr []
  | host :: args1 =>
      match args1 with
      | [] => inl StartIndexError
      | port_text :: args2 =>
          match py_int port_text with
          | None => inl StartValueError
          | Some port =>
              match args2 with
              | [] => inl StartIndexError
              | pid :: args3 =>
                  match parse_peers py_int args3 with
                  | inl e => inl e
                  | inr ps => inr (Peer host port pid :: ps)
                  end
              end
          end
      end
  end.

(** The body of [if __name__ == "__main__"] down to the peer list. *)
Definition parse_argv (py_int : string -> option Z) (argv : list string) : startup :=
  let n := Z.of_nat (length argv) in
  if (n <? 8) || negb ((n - 5) mod 3 =? 0) then StartUsage
  else
    match argv with
    | _ :: my_id :: dme_port_text :: server_host :: server_port_text :: peer_args =>
        match py_int dme_port_text with
        | None => StartValueError
        | Some dme_port =>
            match py_int server_port_text with
            | None => StartValueError
            | Some server_port =>
                match parse_peers py_int peer_args with
                | inl e => e
                | inr ps => Started (Config my_id dme_port server_host server_port ps)
                end
            end
        end
    | _ => StartIndexError
    end.

(** [LamportDME(my_id, dme_port, peers)] for a configuration. *)
Definition start_node (cfg : config) : node :=
  init (cfg_my_id cfg) (cfg_dme_port cfg) (cfg_peers cfg).

(** The command line of the usage message for a configuration: script,
    id, port, server host and port, then host, port and id of each peer;
    [show] writes a number. *)
Fixpoint peer_args (show : Z -> string) (ps : list peer) : list string :=
  match ps with
  | [] => []
  | p :: ps' => peer_host p :: show (peer_port p) :: peer_id p :: peer_args show ps'
  end.

Definition command_line (show : Z -> string) (script : string) (cfg : config)
    : list string :=
  [script; cfg_my_id cfg; show (cfg_dme_port cfg); cfg_server_host cfg;
   show (cfg_server_port cfg)]
  ++ peer_args show (cfg_peers cfg).

(** The positions of the command line that [int()] reads. *)
Definition numeric_position (k : nat) : Prop :=
  k = 2%nat \/ k = 4%nat \/ exists j, k = (6 + 3 * j)%nat.

(** ** [client.py]: the command loop *)

(** The methods of Python strings the loop uses: [strip()], [lower()] and
    the slice [[5:]]. *)
Record str_methods := StrMethods {
  py_strip : string -> string;
  py_lower : string -> string;
  py_from5 : string -> string;
}.

(** What the program asks of the log server. *)
Inductive server_request :=
  | ViewRequest
  | PostRequest (user_id text client_ts : string).

(** The decoded answer of the server, restricted to the keys [status],
    [content] and [message] and to string values. *)
Record server_reply := ServerReply {
  sr_status : option string;
  sr_content : option string;
  sr_message : option string;
}.

(** One exchange with the server: an exception of the socket or of
    [json.loads], or a decoded answer. *)
Inductive server_exchange :=
  | ServerFailed
  | ServerAnswered (r : server_reply).

Inductive cli_exn :=
  | CliOSError
  | CliException (message : string)
  | CliAttributeError
  | CliMiddleware (e : exn).

(** [send_server_view]: the content on status ["OK"], else an exception with
    the message of the server. *)
Definition send_server_view (server : server_request -> server_exchange)
    : cli_exn + option string :=
  match server ViewRequest with
  | ServerFailed => inl CliOSError
  | ServerAnswered r =>
      if decide (sr_status r = Some "OK") then inr (sr_content r)
      else inl (CliException (default "unknown" (sr_message r)))
  end.

(** [send_server_post] *)
Definition send_server_post (server : server_request -> server_exchange)
    (user_id text client_ts : string) : cli_exn + server_reply :=
  match server (PostRequest user_id text client_ts) with
  | ServerFailed => inl CliOSError
  | ServerAnswered r => inr r
  end.

(** What one turn of the command loop meets: the line typed, the
    connections the listener served while the prompt waited, the server, and
    for a post the formatted time of day, the network and clock readings of
    the acquisition, the connections served while the post was sent, and the
    network of the release. *)
Record cli_input := CliInput {
  typed : string;
  heard : list received;
  server : server_request -> server_exchange;
  stamp : string;
  acq_net : network;
  acq_start : Q;
  acq_envs : list wait_env;
  during_post : list received;
  rel_net : network;
}.

(** How the loop ends: [exit] or end of input, an uncaught exception, or a
    caller still waiting for the critical section. *)
Inductive cli_end :=
  | Finished
  | Crashed (e : cli_exn)
  | Waiting.

(** One turn of [while True] in [cli_loop]: the requests made to the server,
    the middleware afterwards, and whether the loop goes on ([None]) or
    ends. *)
Definition cli_turn (sm : str_methods) (inp : cli_input) (st : node)
    : option cli_end * list server_request * node :=
  let st := (_listener (heard inp) st).2 in
  let line := py_strip sm (typed inp) in
  if decide (line = "") then (None, [], st)
  else if decide (py_lower sm line = "exit") then (Some Finished, [], st)
  else if decide (py_lower sm line = "view") then
    match send_server_view (server inp) with
    | inl e => (Some (Crashed e), [ViewRequest], st)
    | inr None => (Some (Crashed CliAttributeError), [ViewRequest], st)
    | inr (Some content) => (None, [ViewRequest], st)
    end
  else if String.prefix "post " (py_lower sm line) then
    let txt := py_strip sm (py_from5 sm line) in
    match request_critical_section (acq_net inp) (acq_start inp) (acq_envs inp) st with
    | (Raise e, st) => (Some (Crashed (CliMiddleware e)), [], st)
    | (Ok None, st) => (Some Waiting, [], st)
    | (Ok (Some ts), st) =>
        let request := PostRequest (my_id st) txt (stamp inp) in
        let st := (_listener (during_post inp) st).2 in
        match send_server_post (server inp) (my_id st) txt (stamp inp) with
        | inl e => (Some (Crashed e), [request], st)
        | inr resp =>
            match release_critical_section (rel_net inp) ts st with
            | (Raise e, st) => (Some (Crashed (CliMiddleware e)), [request], st)
            | (Ok _, st) => (None, [request], st)
            end
        end
    end
  else (None, [], st).

(** [cli_loop]: the turns for the lines typed; the end of the list is the
    end of the input ([EOFError]). *)
Fixpoint cli_loop (sm : str_methods) (inputs : list cli_input) (st : node)
    : cli_end * list server_request * node :=
  match inputs with
  | [] => (Finished, [], st)
  | inp :: inputs' =>
      match cli_turn sm inp st with
      | (Some e, sent, st') => (e, sent, st')
      | (None, sent, st') =>
          let '(e, sent', st'') := cli_loop sm inputs' st' in
          (e, sent ++ sent', st'')
      end
  end.

(** A line that the loop takes for a post. *)
Definition is_post (sm : str_methods) (inp : cli_input) : Prop :=
  let line := py_strip sm (typed inp) in
  line ≠ "" /\ py_lower sm line ≠ "exit" /\ py_lower sm line ≠ "view"
  /\ String.prefix "post " (py_lower sm line) = true.

(** ** The caller's reads during a removal

    [_remove_request] takes no lock, the head test of lines 153-157 takes
    none either, and the lock around the second head test (lines 167-170)
    is one the removal never asks for.  The caller's reads can therefore
    fall between two queue operations of a removal the listener thread is
    carrying out: after [k] of its [get]s, or, the queue once emptied,
    after [k] of its [put]s.  Each [get], [put], [empty()] and [queue[0]]
    is by itself one step (the queue's mutex, the interpreter lock). *)
Inductive removal_point :=
  | Draining (k : nat)
  | Rebuilding (k : nat).

(** The queue object at that point of [_remove_request(nid, _)]. *)
Definition queue_during (point : removal_point) (nid : string)
    (queue : list item) : list item :=
  match point with
  | Draining k => (drain k queue).2
  | Rebuilding k =>
      let '(items, rest) := drain (length queue) queue in
      let items := filter (fun it : item => it.2 ≠ nid) items in
      foldl PriorityQueue.put rest (take k items)
  end.

(** One turn of the [while True] loop taken while the listener serves
    [RELEASE(rts, nid)] and its removal stands at [point]: both head tests
    read the queue as it is there.  The result is what the caller does,
    with the fields as they are once the listener has finished the
    connection. *)
Definition wait_turn_during_removal (ts : Z) (start : Q) (env : wait_env)
    (rts : Z) (nid : string) (point : removal_point) : M (option Z) :=
  fun st =>
    let st := (_listener (arrived env) st).2 in
    let seen := queue_during point nid (request_queue st) in
    let finished := (serve (Decoded (protocol_msg "RELEASE" rts nid)) st).2 in
    let have_all_replies := bool_decide (replies_needed st = ∅) in
    let head_ok := head_is seen ts (my_id st) in
    if have_all_replies && head_ok then
      (Ok (Some ts), set_replies_event false finished)
    else if window_elapsed start (now env) then
      if head_ok then (Ok (Some ts), set_replies_event false finished)
      else (Ok None, finished)
    else (Ok None, finished).


(** ** The queue at work *)

Example put_run :
  foldl PriorityQueue.put [] [(5, "A"); (3, "B"); (7, "C"); (3, "A")]
  = [(3, "A"); (3, "B"); (7, "C"); (5, "A")].
Proof. reflexivity. Qed.

Example get_run :
  PriorityQueue.get [(3, "A"); (3, "B"); (7, "C"); (5, "A")]
  = Some ((3, "A"), [(3, "B"); (5, "A"); (7, "C")]).
Proof. reflexivity. Qed.

Example remove_run :
  rebuild_without "B" [(3, "A"); (3, "B"); (7, "C"); (5, "A")]
  = [(3, "A"); (5, "A"); (7, "C")].
Proof. reflexivity. Qed.

(** ** Facts about the order on request records *)

Section item_order.

Lemma string_ltb_leb (s1 s2 : string) :
  String.ltb s2 s1 = negb (String.leb s1 s2).
Proof.
  unfold String.ltb, String.leb. rewrite String.compare_antisym.
  by destruct (String.compare s1 s2).
Qed.

Lemma item_le_spec (a b : item) :
  item_le a b <-> a.1 < b.1 \/ (a.1 = b.1 /\ String.le a.2 b.2).
Proof.
  unfold item_le, item_ltb, String.le. rewrite string_ltb_leb.
  destruct (Z.eqb_spec b.1 a.1) as [->|Hne].
  - rewrite negb_false_iff, Is_true_true. intuition lia.
  - rewrite Z.ltb_ge. intuition lia.
Qed.

Lemma item_le_refl (a : item) : item_le a a.
Proof. apply item_le_spec. right. split; [done|]. reflexivity. Qed.

Lemma item_le_trans (a b c : item) : item_le a b -> item_le b c -> item_le a c.
Proof.
  rewrite !item_le_spec. intros [?|[? Hab]] [?|[? Hbc]]; try (left; lia).
  right. split; [lia|]. by etrans.
Qed.

Lemma item_le_total (a b : item) : item_le a b \/ item_le b a.
Proof.
  rewrite !item_le_spec.
  destruct (Z.lt_trichotomy a.1 b.1) as [?|[?|?]]; [by left; left| |by right; left].
  destruct (total String.le a.2 b.2); [left|right]; right; split; auto.
Qed.

Lemma item_le_antisym (a b : item) : item_le a b -> item_le b a -> a = b.
Proof.
  rewrite !item_le_spec. destruct a as [ta na], b as [tb nb]; simpl.
  intros [?|[? Hab]] [?|[? Hba]]; try lia.
  f_equal; [done|]. by apply (anti_symm String.le).
Qed.

Lemma item_ltb_le (a b : item) : item_ltb a b = true -> item_le a b.
Proof.
  intros Hlt. destruct (item_le_total a b) as [|Hba]; [done|].
  unfold item_le in Hba. congruence.
Qed.

Lemma item_ltb_irrefl (a : item) : item_ltb a a = false.
Proof. apply item_le_refl. Qed.

End item_order.

(** ** The heap list: permutation and invariant *)

Section heap_facts.

Implicit Types h : list item.

Lemma parent_child (i : nat) :
  (0 < i)%nat -> (i = 2 * parent i + 1 \/ i = 2 * parent i + 2)%nat.
Proof.
  intros Hi. unfold parent. rewrite Nat.shiftr_div_pow2. change (2 ^ 1)%nat with 2%nat.
  pose proof (Nat.div_mod_eq (i - 1) 2) as Hdm.
  pose proof (Nat.mod_upper_bound (i - 1) 2) as Hub. lia.
Qed.

Lemma parent_lt (i : nat) : (0 < i)%nat -> (parent i < i)%nat.
Proof. intros Hi. destruct (parent_child i Hi); lia. Qed.

(** Overwriting position [j] by [x] trades the old element for [x]. *)
Lemma insert_trade h j x y :
  h !! j = Some y -> y :: <[j := x]> h ≡ₚ x :: h.
Proof.
  revert j. induction h as [|a h IH]; intros [|j] Hj; simplify_eq/=.
  - apply Permutation_swap.
  - rewrite (Permutation_swap a y), (IH j Hj). apply Permutation_swap.
Qed.

(** Moving [h[j]] into position [i] and then writing [x] at [j] is, up to
    order, writing [x] at [i]. *)
Lemma insert_move h i j x y :
  h !! j = Some y -> i ≠ j -> (i < length h)%nat ->
  <[j := x]> (<[i := y]> h) ≡ₚ <[i := x]> h.
Proof.
  intros Hj Hne Hi.
  destruct (lookup_lt_is_Some_2 h i Hi) as [z Hz].
  apply (Permutation_cons_inv (a := y)).
  rewrite insert_trade by (by rewrite list_lookup_insert_ne).
  apply (Permutation_cons_inv (a := z)).
  rewrite (Permutation_swap y z), (Permutation_swap x z).
  rewrite !insert_trade by done. apply Permutation_swap.
Qed.

(** *** [_siftdown] *)

Lemma siftdown_loop_perm fuel h startpos pos newitem :
  (pos < length h)%nat ->
  heapq._siftdown_loop fuel h startpos pos newitem ≡ₚ <[pos := newitem]> h.
Proof.
  revert h pos. induction fuel as [|fuel IH]; intros h pos Hpos; simpl; try done.
  destruct (Nat.ltb_spec startpos pos) as [Hlt|]; [|done].
  destruct (h !! parent pos) as [par|] eqn:Hpar; [|done].
  destruct (item_ltb newitem par); [|done].
  assert (parent pos < pos)%nat as Hpp by (apply parent_lt; lia).
  rewrite IH by (rewrite length_insert; lia).
  apply insert_move; [done|lia|done].
Qed.

Lemma siftdown_perm h startpos pos : heapq._siftdown h startpos pos ≡ₚ h.
Proof.
  unfold heapq._siftdown. destruct (h !! pos) as [newitem|] eqn:Hpos; [|done].
  rewrite siftdown_loop_perm by (by eapply lookup_lt_Some).
  by rewrite list_insert_id.
Qed.

(** Closing the hole: [newitem] is written at [pos] once the root is
    reached or the parent is not larger. *)
Lemma sift_inv_close h pos newitem :
  sift_inv h pos newitem ->
  (pos = 0%nat \/ exists p, h !! parent pos = Some p /\ item_le p newitem) ->
  is_heap (<[pos := newitem]> h).
Proof.
  intros [Hpos Hedges Hhole Hskip] Hstop i x p Hi Hx Hp.
  destruct (lookup_lt_is_Some_2 h pos Hpos) as [old Hold].
  pose proof (parent_lt i Hi) as Hpi.
  destruct (decide (i = pos)) as [->|Hne].
  - rewrite list_lookup_insert_eq in Hx by done.
    rewrite list_lookup_insert_ne in Hp by lia.
    destruct Hstop as [->|(p' & Hp' & Hle)]; [lia|]. congruence.
  - rewrite list_lookup_insert_ne in Hx by done.
    destruct (decide (parent i = pos)) as [<-|Hne'].
    + rewrite list_lookup_insert_eq in Hp by done. simplify_eq.
      eapply item_le_trans; [by apply Hhole|]. eauto.
    + rewrite list_lookup_insert_ne in Hp by done. eauto.
Qed.

(** One turn of the loop: the parent moves down into the hole. *)
Lemma sift_inv_step h pos newitem par :
  sift_inv h pos newitem -> (0 < pos)%nat ->
  h !! parent pos = Some par -> item_ltb newitem par = true ->
  sift_inv (<[pos := par]> h) (parent pos) newitem.
Proof.
  intros [Hpos Hedges Hhole Hskip] Hpos0 Hpar Hlt.
  pose proof (parent_lt pos Hpos0) as Hpp.
  split.
  - rewrite length_insert. lia.
  - intros i x p Hi Hne Hx Hp. pose proof (parent_lt i Hi) as Hpi.
    destruct (decide (i = pos)) as [->|Hne2].
    + rewrite list_lookup_insert_eq in Hx by done.
      rewrite list_lookup_insert_ne in Hp by lia.
      simplify_eq. apply item_le_refl.
    + rewrite list_lookup_insert_ne in Hx by done.
      destruct (decide (parent i = pos)) as [Heq|Hne3].
      * rewrite Heq, list_lookup_insert_eq in Hp by done.
        injection Hp as <-. eapply (Hskip i); eauto.
      * rewrite list_lookup_insert_ne in Hp by done. eauto.
  - intros x Hx. rewrite list_lookup_insert_ne in Hx by lia.
    simplify_eq. by apply item_ltb_le.
  - intros c x g Hpp0 Hc Hcp Hx Hg.
    pose proof (parent_lt _ Hpp0) as Hppp.
    rewrite list_lookup_insert_ne in Hg by lia.
    assert (item_le g par) as Hgpar by (eapply (Hedges (parent pos)); eauto; lia).
    destruct (decide (c = pos)) as [->|Hne].
    + rewrite list_lookup_insert_eq in Hx by done. by simplify_eq.
    + rewrite list_lookup_insert_ne in Hx by done.
      eapply item_le_trans; [exact Hgpar|].
      eapply (Hedges c); eauto. by rewrite Hcp.
Qed.

Lemma siftdown_loop_heap fuel h pos newitem :
  (pos <= fuel)%nat -> sift_inv h pos newitem ->
  is_heap (heapq._siftdown_loop fuel h 0 pos newitem).
Proof.
  revert h pos. induction fuel as [|fuel IH]; intros h pos Hfuel Hinv; simpl.
  { apply sift_inv_close; [done|]. left. lia. }
  destruct (Nat.ltb_spec 0 pos) as [Hlt|];
    [|apply sift_inv_close; [done|left; lia]].
  pose proof (parent_lt pos Hlt) as Hpp.
  destruct (lookup_lt_is_Some_2 h (parent pos)) as [par Hpar];
    [pose proof (sift_pos _ _ _ Hinv); lia|].
  rewrite Hpar.
  destruct (item_ltb newitem par) eqn:Hcmp.
  - apply IH; [lia|]. by apply sift_inv_step.
  - apply sift_inv_close; [done|]. right. by exists par.
Qed.

(** *** [heappush] *)

Lemma heappush_perm h it : heapq.heappush h it ≡ₚ it :: h.
Proof.
  unfold heapq.heappush. rewrite siftdown_perm.
  symmetry. apply Permutation_cons_append.
Qed.

Lemma heappush_heap h it : is_heap h -> is_heap (heapq.heappush h it).
Proof.
  intros Hheap. unfold heapq.heappush, heapq._siftdown.
  rewrite lookup_app_r, Nat.sub_diag by done. simpl.
  apply siftdown_loop_heap; [done|]. split.
  - rewrite length_app. simpl. lia.
  - intros i x p Hi Hne Hx Hp. pose proof (parent_lt i Hi) as Hpi.
    apply lookup_lt_Some in Hx as Hlen. rewrite length_app in Hlen. simpl in Hlen.
    rewrite lookup_app_l in Hx by lia. rewrite lookup_app_l in Hp by lia.
    eauto.
  - intros x Hx. rewrite lookup_app_r, Nat.sub_diag in Hx by done.
    simplify_eq/=. apply item_le_refl.
  - intros c x g _ Hc Hcp Hx _.
    apply lookup_lt_Some in Hx. rewrite length_app in Hx. simpl in Hx.
    destruct (parent_child c Hc); lia.
Qed.

(** The fuel given to the two loops is never what stops them. *)
Lemma siftdown_loop_fuel fuel fuel' h startpos pos newitem :
  (pos <= fuel)%nat -> (pos <= fuel')%nat ->
  heapq._siftdown_loop fuel h startpos pos newitem
  = heapq._siftdown_loop fuel' h startpos pos newitem.
Proof.
  revert fuel' h pos. induction fuel as [|fuel IH]; intros [|fuel'] h pos H1 H2; simpl;
    try done.
  - assert (pos = 0)%nat as -> by lia. by destruct startpos.
  - assert (pos = 0)%nat as -> by lia. by destruct startpos.
  - destruct (Nat.ltb_spec startpos pos) as [Hlt|]; [|done].
    destruct (h !! parent pos) as [par|]; [|done].
    destruct (item_ltb newitem par); [|done].
    pose proof (parent_lt pos). apply IH; lia.
Qed.

Lemma siftup_loop_leaf fuel h endpos pos h' pos' :
  (endpos <= length h)%nat -> (endpos <= pos + fuel)%nat ->
  heapq._siftup_loop fuel h endpos pos = (h', pos') ->
  (endpos <= 2 * pos' + 1)%nat.
Proof.
  revert h pos. induction fuel as [|fuel IH]; intros h pos Hend Hfuel Hrun;
    cbn [heapq._siftup_loop] in Hrun.
  { simplify_eq. lia. }
  destruct (Nat.ltb_spec (2 * pos + 1) endpos) as [Hlt|]; [|simplify_eq; lia].
  match type of Hrun with context [h !! ?c] => set (childpos := c) in * end.
  assert (pos < childpos < endpos)%nat as Hchild.
  { subst childpos. destruct (Nat.ltb_spec (2 * pos + 1 + 1) endpos); simpl;
      [destruct (negb _)|]; lia. }
  destruct (lookup_lt_is_Some_2 h childpos) as [c Hc]; [lia|]. rewrite Hc in Hrun.
  eapply IH; [| |exact Hrun]; [rewrite length_insert|]; lia.
Qed.

Lemma is_heap_nil : is_heap [].
Proof. intros i x p _ Hx. by rewrite lookup_nil in Hx. Qed.

(** In a heap the first element is below every element. *)
Lemma is_heap_head h m :
  is_heap h -> h !! 0%nat = Some m -> forall x, x ∈ h -> item_le m x.
Proof.
  intros Hheap Hm x [i Hi]%list_elem_of_lookup. revert x Hi.
  induction (lt_wf i) as [i _ IH]. intros x Hi.
  destruct (decide (i = 0%nat)) as [->|Hne].
  { simplify_eq. apply item_le_refl. }
  assert (0 < i)%nat as Hpos by lia.
  pose proof (parent_lt i Hpos) as Hlt.
  destruct (lookup_lt_is_Some_2 h (parent i)) as [p Hp].
  { apply lookup_lt_Some in Hi. lia. }
  eapply item_le_trans; [by apply (IH (parent i))|]. eauto.
Qed.

(** *** [_siftup] and [heappop] *)

Lemma siftup_loop_spec fuel h endpos pos h' pos' newitem :
  (pos < length h)%nat ->
  heapq._siftup_loop fuel h endpos pos = (h', pos') ->
  (pos' < length h')%nat /\ <[pos' := newitem]> h' ≡ₚ <[pos := newitem]> h.
Proof.
  revert h pos. induction fuel as [|fuel IH]; intros h pos Hpos Hrun;
    cbn [heapq._siftup_loop] in Hrun.
  { by simplify_eq. }
  destruct (2 * pos + 1 <? endpos)%nat; [|by simplify_eq].
  match type of Hrun with context [h !! ?c] => set (childpos := c) in * end.
  assert (pos ≠ childpos) as Hne by (subst childpos; destruct (_ && _); lia).
  destruct (h !! childpos) as [c|] eqn:Hc; [|by simplify_eq].
  apply IH in Hrun as [Hlen Hperm]; [|rewrite length_insert; by eapply lookup_lt_Some].
  split; [done|]. rewrite Hperm. by apply insert_move.
Qed.

Lemma siftup_perm h pos : heapq._siftup h pos ≡ₚ h.
Proof.
  unfold heapq._siftup. destruct (h !! pos) as [newitem|] eqn:Hpos; [|done].
  destruct (heapq._siftup_loop _ _ _ _) as [h' pos'] eqn:Hrun.
  eapply (siftup_loop_spec _ _ _ _ _ _ newitem) in Hrun as [_ Hperm];
    [|by eapply lookup_lt_Some].
  by rewrite siftdown_perm, Hperm, list_insert_id.
Qed.

Lemma heappop_None h : heapq.heappop h = None <-> h = [].
Proof.
  unfold heapq.heappop. destruct (last h) as [x|] eqn:Hlast.
  - split; [by repeat case_match|]. intros ->. done.
  - apply last_None in Hlast. by subst.
Qed.

Lemma heappop_perm h x h' : heapq.heappop h = Some (x, h') -> h ≡ₚ x :: h'.
Proof.
  unfold heapq.heappop. intros Hpop.
  destruct (last h) as [lastelt|] eqn:Hlast; [|done].
  apply last_Some in Hlast as [rest ->].
  rewrite length_app, Nat.add_sub, take_app_length in Hpop.
  destruct rest as [|returnitem rest]; simplify_eq/=; [done|].
  rewrite siftup_perm. simpl.
  by rewrite <-Permutation_cons_append, Permutation_swap.
Qed.

(** [_siftup] from the root restores the heap. *)

Lemma siftup_inv_step h pos v :
  siftup_inv h pos -> (2 * pos + 1 < length h)%nat ->
  let rightpos := (2 * pos + 1 + 1)%nat in
  let childpos :=
    if (rightpos <? length h)%nat && negb (heapq.lt_at h (2 * pos + 1) rightpos)
    then rightpos else (2 * pos + 1)%nat in
  h !! childpos = Some v ->
  siftup_inv (<[pos := v]> h) childpos.
Proof.
  intros [Hpos Hedges Hskip] Hleft rightpos childpos Hv.
  assert (childpos = 2 * pos + 1 \/ childpos = 2 * pos + 2)%nat as Hchoice.
  { subst childpos rightpos. destruct (_ && _); lia. }
  assert (forall i x, (0 < i)%nat -> i ≠ childpos -> parent i = pos ->
    h !! i = Some x -> item_le v x) as Hsmaller.
  { intros i x Hi Hne Hpi Hx. apply lookup_lt_Some in Hx as Hilen.
    pose proof (parent_child i Hi) as Hchild. rewrite Hpi in Hchild.
    subst childpos rightpos. unfold heapq.lt_at in *.
    destruct (Nat.ltb_spec (2 * pos + 1 + 1) (length h)) as [Hr|Hr]; cbn [andb] in *;
      [|lia].
    destruct (lookup_lt_is_Some_2 h (2 * pos + 1)) as [l Hl]; [lia|].
    destruct (lookup_lt_is_Some_2 h (2 * pos + 1 + 1)) as [r Hrr]; [lia|].
    rewrite Hl, Hrr in *.
    destruct (item_ltb l r) eqn:Hlr; cbn [negb] in *.
    - assert (i = 2 * pos + 1 + 1)%nat as -> by lia. simplify_eq.
      by apply item_ltb_le.
    - assert (i = 2 * pos + 1)%nat as -> by lia. by simplify_eq. }
  clearbody childpos. clear rightpos.
  assert (parent childpos = pos /\ (0 < childpos)%nat /\ (childpos < length h)%nat)
    as (Hcp & Hc0 & Hclen).
  { apply lookup_lt_Some in Hv. pose proof (parent_child childpos). lia. }
  split.
  - by rewrite length_insert.
  - intros i x p Hi Hne Hpne Hx Hp. pose proof (parent_lt i Hi) as Hpi.
    destruct (decide (i = pos)) as [->|Hne2].
    + rewrite list_lookup_insert_eq in Hx by done.
      rewrite list_lookup_insert_ne in Hp by lia. simplify_eq.
      eapply (Hskip childpos); eauto.
    + rewrite list_lookup_insert_ne in Hx by done.
      destruct (decide (parent i = pos)) as [Heq|Hne3].
      * rewrite Heq, list_lookup_insert_eq in Hp by done. simplify_eq. eauto.
      * rewrite list_lookup_insert_ne in Hp by done. eauto.
  - intros c x g _ Hc Hcc Hx Hg. rewrite Hcp in Hg.
    rewrite list_lookup_insert_eq in Hg by done. simplify_eq.
    pose proof (parent_lt c Hc) as Hlt.
    rewrite list_lookup_insert_ne in Hx by lia.
    eapply (Hedges c); eauto; lia.
Qed.

Lemma siftup_loop_inv fuel h pos h' pos' :
  siftup_inv h pos ->
  heapq._siftup_loop fuel h (length h) pos = (h', pos') ->
  siftup_inv h' pos' /\ length h' = length h.
Proof.
  revert h pos. induction fuel as [|fuel IH]; intros h pos Hinv Hrun;
    cbn [heapq._siftup_loop] in Hrun.
  { by simplify_eq. }
  destruct (Nat.ltb_spec (2 * pos + 1) (length h)) as [Hlt|]; [|by simplify_eq].
  match type of Hrun with context [h !! ?c] => destruct (h !! c) as [v|] eqn:Hv end;
    [|by simplify_eq].
  pose proof (siftup_inv_step h pos v Hinv Hlt Hv) as Hstep.
  rewrite <-(length_insert h pos v) in Hrun at 1.
  apply IH in Hrun as [Hinv' Hlen]; [|done].
  by rewrite length_insert in Hlen.
Qed.

Lemma siftup_inv_leaf h pos newitem :
  siftup_inv h pos -> (length h <= 2 * pos + 1)%nat ->
  sift_inv (<[pos := newitem]> h) pos newitem.
Proof.
  intros [Hpos Hedges Hskip] Hleaf.
  assert (forall i, (0 < i)%nat -> parent i = pos -> (length h <= i)%nat) as Hnochild.
  { intros i Hi Hpi. destruct (parent_child i Hi); lia. }
  split.
  - by rewrite length_insert.
  - intros i x p Hi Hne Hx Hp.
    rewrite list_lookup_insert_ne in Hx by done.
    destruct (decide (parent i = pos)) as [Heq|Hne2].
    + apply lookup_lt_Some in Hx. specialize (Hnochild i Hi Heq). lia.
    + rewrite list_lookup_insert_ne in Hp by done. eauto.
  - intros x Hx. rewrite list_lookup_insert_eq in Hx by done.
    simplify_eq. apply item_le_refl.
  - intros c x g _ Hc Hcp Hx _. apply lookup_lt_Some in Hx.
    rewrite length_insert in Hx. specialize (Hnochild c Hc Hcp). lia.
Qed.

Lemma siftup_heap h : siftup_inv h 0 -> is_heap (heapq._siftup h 0).
Proof.
  intros Hinv. unfold heapq._siftup.
  destruct (lookup_lt_is_Some_2 h 0 (siftup_pos _ _ Hinv)) as [newitem Hnew].
  rewrite Hnew.
  destruct (heapq._siftup_loop _ _ _ _) as [h' pos'] eqn:Hrun.
  pose proof (siftup_loop_leaf _ _ _ _ _ _ (le_n _) (Nat.le_add_l _ _) Hrun) as Hleaf.
  apply siftup_loop_inv in Hrun as [Hinv' Hlen]; [|done].
  pose proof (siftup_pos _ _ Hinv') as Hpos'.
  unfold heapq._siftdown. rewrite list_lookup_insert_eq by done.
  apply siftdown_loop_heap; [done|]. apply siftup_inv_leaf; [done|lia].
Qed.

Lemma is_heap_app_l h1 h2 : is_heap (h1 ++ h2) -> is_heap h1.
Proof.
  intros Hheap i x p Hi Hx Hp.
  apply (Hheap i); [done|by apply lookup_app_l_Some..].
Qed.

(** [heappop] on a heap returns its first element and leaves a heap. *)
Lemma heappop_heap h x h' :
  is_heap h -> heapq.heappop h = Some (x, h') -> h !! 0%nat = Some x /\ is_heap h'.
Proof.
  unfold heapq.heappop. intros Hheap Hpop.
  destruct (last h) as [lastelt|] eqn:Hlast; [|done].
  apply last_Some in Hlast as [rest ->].
  rewrite length_app, Nat.add_sub, take_app_length in Hpop.
  destruct rest as [|returnitem rest]; simplify_eq/=; [split; [done|apply is_heap_nil]|].
  split; [done|]. apply siftup_heap.
  apply (is_heap_app_l (x :: rest) [lastelt]) in Hheap. split.
  - simpl. lia.
  - intros i y p Hi _ Hpne Hy Hp.
    destruct i as [|i]; [lia|]. destruct (parent (S i)) as [|j] eqn:Hpar; [done|].
    apply (Hheap (S i)); [done|done|by rewrite Hpar].
  - lia.
Qed.

(** *** Emptying and rebuilding the queue *)

Lemma drain_spec fuel q items rest :
  (length q <= fuel)%nat -> drain fuel q = (items, rest) ->
  rest = [] /\ items ≡ₚ q.
Proof.
  revert q items rest. induction fuel as [|fuel IH]; intros q items rest Hfuel Hrun.
  { destruct q; simpl in *; [by simplify_eq|lia]. }
  simpl in Hrun. destruct q as [|a q]; [by simplify_eq/=|].
  simpl in Hrun. unfold PriorityQueue.get in Hrun.
  destruct (heapq.heappop (a :: q)) as [[it q']|] eqn:Hpop;
    [|by apply heappop_None in Hpop].
  apply heappop_perm in Hpop.
  destruct (drain fuel q') as [items' rest'] eqn:Hrec. simplify_eq.
  apply IH in Hrec as [-> Hperm].
  - split; [done|]. by rewrite Hpop, Hperm.
  - apply Permutation_length in Hpop. simpl in *. lia.
Qed.

Lemma foldl_put_perm q items : foldl PriorityQueue.put q items ≡ₚ items ++ q.
Proof.
  revert q. induction items as [|it items IH]; intros q; simpl; [done|].
  rewrite IH. unfold PriorityQueue.put. rewrite heappush_perm.
  by rewrite Permutation_middle.
Qed.

Lemma foldl_put_heap q items : is_heap q -> is_heap (foldl PriorityQueue.put q items).
Proof.
  revert q. induction items as [|it items IH]; intros q Hq; simpl; [done|].
  apply IH. by apply heappush_heap.
Qed.

(** [_remove_request] keeps, up to order, exactly the records of the other
    node ids. *)
Lemma rebuild_without_perm nid q :
  rebuild_without nid q ≡ₚ filter (fun it : item => it.2 ≠ nid) q.
Proof.
  unfold rebuild_without.
  destruct (drain (length q) q) as [items rest] eqn:Hrun.
  apply drain_spec in Hrun as [-> Hperm]; [|done].
  by rewrite foldl_put_perm, app_nil_r, Hperm.
Qed.

Lemma rebuild_without_heap nid q : is_heap (rebuild_without nid q).
Proof.
  unfold rebuild_without.
  destruct (drain (length q) q) as [items rest] eqn:Hrun.
  apply drain_spec in Hrun as [-> Hperm]; [|done].
  apply foldl_put_heap, is_heap_nil.
Qed.

Lemma queue_reachable_heap q : queue_reachable q -> is_heap q.
Proof.
  induction 1 as [|q it _ IH|q it q' _ IH Hget].
  - apply is_heap_nil.
  - by apply heappush_heap.
  - by apply (heappop_heap q it q').
Qed.

Lemma drain_reachable fuel q items rest :
  queue_reachable q -> drain fuel q = (items, rest) -> queue_reachable rest.
Proof.
  revert q items rest. induction fuel as [|fuel IH]; intros q items rest Hq Hrun;
    simpl in Hrun; [by simplify_eq|].
  destruct (PriorityQueue.empty q); [by simplify_eq|].
  destruct (PriorityQueue.get q) as [[it q']|] eqn:Hget; [|by simplify_eq].
  destruct (drain fuel q') as [items' rest'] eqn:Hrec. simplify_eq.
  eapply IH; [|exact Hrec]. by eapply reach_get.
Qed.

Lemma foldl_put_reachable q items :
  queue_reachable q -> queue_reachable (foldl PriorityQueue.put q items).
Proof.
  revert q. induction items as [|it items IH]; intros q Hq; simpl; [done|].
  apply IH. by constructor.
Qed.

Lemma rebuild_without_reachable nid q :
  queue_reachable q -> queue_reachable (rebuild_without nid q).
Proof.
  intros Hq. unfold rebuild_without.
  destruct (drain (length q) q) as [items rest] eqn:Hrun.
  apply foldl_put_reachable. by eapply drain_reachable.
Qed.

(** *** The order in which the queue is emptied *)

Global Instance item_le_reflexive : Reflexive item_le := item_le_refl.
Global Instance item_le_transitive : Transitive item_le := item_le_trans.
Global Instance item_le_antisymm : AntiSymm (=) item_le := item_le_antisym.

Lemma drain_sorted fuel q items rest :
  is_heap q -> (length q <= fuel)%nat -> drain fuel q = (items, rest) ->
  StronglySorted item_le items.
Proof.
  revert q items rest. induction fuel as [|fuel IH]; intros q items rest Hq Hfuel Hrun;
    simpl in Hrun; [simplify_eq; constructor|].
  destruct (PriorityQueue.empty q); [simplify_eq; constructor|].
  destruct (PriorityQueue.get q) as [[it q']|] eqn:Hget; [|simplify_eq; constructor].
  destruct (drain fuel q') as [items' rest'] eqn:Hrec. simplify_eq.
  pose proof (heappop_perm _ _ _ Hget) as Hperm.
  destruct (heappop_heap _ _ _ Hq Hget) as [Hhead Hq'].
  assert (length q' <= fuel)%nat as Hfuel'.
  { apply Permutation_length in Hperm. simpl in Hperm. lia. }
  constructor; [by eapply IH|].
  apply drain_spec in Hrec as [_ Hitems]; [|done].
  apply Forall_forall. intros x Hx. apply (is_heap_head q); [done..|].
  rewrite Hperm. right. by rewrite <-Hitems.
Qed.

(** Putting an item that is not below any item of the queue appends it. *)
Lemma heappush_last h it :
  (forall x, x ∈ h -> item_le x it) -> heapq.heappush h it = h ++ [it].
Proof.
  intros Hmax. unfold heapq.heappush, heapq._siftdown.
  rewrite lookup_app_r, Nat.sub_diag by done. simpl.
  assert (<[length h := it]> (h ++ [it]) = h ++ [it]) as Hid.
  { apply list_insert_id. by rewrite lookup_app_r, Nat.sub_diag. }
  destruct (length h) as [|n] eqn:Hlen; simpl; [done|].
  destruct (lookup_lt_is_Some_2 (h ++ [it]) (parent (S n))) as [par Hpar].
  { pose proof (parent_lt (S n)). rewrite length_app. simpl. lia. }
  rewrite Hpar. rewrite lookup_app_l in Hpar by (pose proof (parent_lt (S n)); lia).
  apply list_elem_of_lookup_2, Hmax in Hpar. unfold item_le in Hpar.
  by rewrite Hpar.
Qed.

Lemma foldl_put_sorted h items :
  StronglySorted item_le (h ++ items) -> foldl PriorityQueue.put h items = h ++ items.
Proof.
  revert h. induction items as [|it items IH]; intros h Hsorted; simpl.
  { by rewrite app_nil_r. }
  unfold PriorityQueue.put at 2. rewrite heappush_last.
  - rewrite IH; rewrite <-(assoc_L (++)); done.
  - intros x Hx. eapply StronglySorted_app_1_elem_of; [done..|left].
Qed.

Lemma StronglySorted_filter {A} (R : relation A) (P : A -> Prop)
    `{!forall x, Decision (P x)} (l : list A) :
  StronglySorted R l -> StronglySorted R (filter P l).
Proof.
  induction 1 as [|x l _ IH Hx]; [constructor|].
  rewrite filter_cons. destruct (decide (P x)); [|done].
  constructor; [done|]. rewrite Forall_forall in *.
  intros y [_ Hy]%list_elem_of_filter. auto.
Qed.

(** On a heap, [_remove_request] leaves the other records in ascending
    order. *)
Lemma rebuild_without_sorted nid q :
  is_heap q -> StronglySorted item_le (rebuild_without nid q).
Proof.
  intros Hq. unfold rebuild_without.
  destruct (drain (length q) q) as [items rest] eqn:Hrun.
  pose proof (drain_sorted _ _ _ _ Hq (le_n _) Hrun) as Hsorted.
  apply drain_spec in Hrun as [-> _]; [|done].
  rewrite foldl_put_sorted; simpl; by apply StronglySorted_filter.
Qed.

(** An ascending queue without record of [nid] is rebuilt as it is. *)
Lemma rebuild_without_fixed nid q :
  is_heap q -> StronglySorted item_le q -> (forall it, it ∈ q -> it.2 ≠ nid) ->
  rebuild_without nid q = q.
Proof.
  intros Hq Hsorted Habsent. unfold rebuild_without.
  destruct (drain (length q) q) as [items rest] eqn:Hrun.
  pose proof (drain_sorted _ _ _ _ Hq (le_n _) Hrun) as Hitems.
  apply drain_spec in Hrun as [-> Hperm]; [|done].
  assert (items = q) as -> by (by apply (StronglySorted_unique item_le)).
  assert (filter (fun it : item => it.2 ≠ nid) q = q) as ->.
  { clear -Habsent. induction q as [|a q IH]; [done|].
    rewrite filter_cons, decide_True by (apply Habsent; left).
    f_equal. apply IH. intros x Hx. apply Habsent. by right. }
  by rewrite foldl_put_sorted.
Qed.

(** A second removal for the same node id changes nothing at all. *)
Lemma rebuild_without_idemp nid q :
  is_heap q -> rebuild_without nid (rebuild_without nid q) = rebuild_without nid q.
Proof.
  intros Hq. apply rebuild_without_fixed.
  - apply rebuild_without_heap.
  - by apply rebuild_without_sorted.
  - intros it Hit. rewrite rebuild_without_perm in Hit.
    by apply list_elem_of_filter in Hit as [? _].
Qed.

Lemma item_le_record_le (a b : item) : item_le a b <-> record_le a b.
Proof.
  rewrite item_le_spec. unfold record_le, String.le. by rewrite Is_true_true.
Qed.

Lemma peek_head_lookup h : peek_head h = h !! 0%nat.
Proof. by destruct h. Qed.

(** Two heaps with the same records have the same head. *)
Lemma is_heap_perm_head h1 h2 :
  is_heap h1 -> is_heap h2 -> h1 ≡ₚ h2 -> peek_head h1 = peek_head h2.
Proof.
  intros Hh1 Hh2 Hperm. rewrite !peek_head_lookup.
  destruct h1 as [|m1 h1], h2 as [|m2 h2]; simpl; try done.
  - by apply Permutation_nil_cons in Hperm.
  - symmetry in Hperm. by apply Permutation_nil_cons in Hperm.
  - f_equal. apply item_le_antisym.
    + apply (is_heap_head (m1 :: h1)); [done..|]. rewrite Hperm. left.
    + apply (is_heap_head (m2 :: h2)); [done..|]. rewrite <-Hperm. left.
Qed.

End heap_facts.

(** ** The logical clock *)

(** C5: [tick()] moves the clock from [c] to [c + 1], [tick(observed)] to
    [max(c, observed) + 1]; both return the new value, leave every other
    field alone, strictly increase the clock, and after observing [t] the
    clock is at least [t + 1]. *)
Theorem increment_clock_spec (st : node) (observed : Z) (other_ts : option Z) :
  _increment_clock None st = (Ok (clock st + 1), set_clock (clock st + 1) st)
  /\ _increment_clock (Some observed) st
     = (Ok (Z.max (clock st) observed + 1),
        set_clock (Z.max (clock st) observed + 1) st)
  /\ (_increment_clock other_ts st).1 = Ok (clock (_increment_clock other_ts st).2)
  /\ clock st < clock (_increment_clock other_ts st).2
  /\ observed + 1 <= clock (_increment_clock (Some observed) st).2.
Proof.
  repeat split; try done.
  - destruct other_ts; simpl; lia.
  - simpl. lia.
Qed.

(** ** The listener *)

Section listener_facts.

Lemma handle_request (st : node) (msg : message) (ts : Z) (nid : string) :
  msg_type msg = Some "REQUEST" ->
  msg_timestamp msg = Some ts -> msg_node_id msg = Some nid ->
  handle_message msg st
  = (Ok (protocol_msg "REPLY" (Z.max (clock st) ts + 1 + 1) (my_id st)),
     set_clock (Z.max (clock st) ts + 1 + 1)
       (set_request_queue (PriorityQueue.put (request_queue st) (ts, nid))
          (set_clock (Z.max (clock st) ts + 1) st))).
Proof.
  intros Htyp Hts Hnid. unfold handle_message. rewrite Htyp, Hts, Hnid.
  by rewrite decide_True.
Qed.

Lemma handle_release (st : node) (msg : message) (ts : Z) (nid : string) :
  msg_type msg = Some "RELEASE" ->
  msg_timestamp msg = Some ts -> msg_node_id msg = Some nid ->
  handle_message msg st
  = (Ok ack_msg,
     set_request_queue (rebuild_without nid (request_queue st))
       (set_clock (Z.max (clock st) ts + 1) st)).
Proof.
  intros Htyp Hts Hnid. unfold handle_message. rewrite Htyp, Hts, Hnid.
  rewrite decide_False by done. by rewrite decide_True.
Qed.

(** The [REPLY] branch: the clock observes [ts], [nid] leaves the
    outstanding set if it is there, and the event is set when that empties
    the set. *)
Lemma handle_reply (st : node) (msg : message) (ts : Z) (nid : string) :
  msg_type msg = Some "REPLY" ->
  msg_timestamp msg = Some ts -> msg_node_id msg = Some nid ->
  handle_message msg st
  = (Ok ack_msg, mark_reply nid (set_clock (Z.max (clock st) ts + 1) st)).
Proof.
  intros Htyp Hts Hnid. unfold handle_message. rewrite Htyp, Hts, Hnid.
  rewrite 2!decide_False by done. by rewrite decide_True.
Qed.

Lemma mark_reply_spec (nid : string) (st : node) :
  replies_needed (mark_reply nid st) = replies_needed st ∖ {[nid]}
  /\ (nid ∈ replies_needed st -> replies_needed st ∖ {[nid]} = ∅ ->
      replies_event (mark_reply nid st) = true)
  /\ clock (mark_reply nid st) = clock st
  /\ request_queue (mark_reply nid st) = request_queue st.
Proof.
  unfold mark_reply. destruct (decide (nid ∈ replies_needed st)) as [Hin|Hnin].
  - destruct (decide (replies_needed st ∖ {[nid]} = ∅)); simpl; repeat split; done.
  - repeat split; try done. set_solver.
Qed.

End listener_facts.

(** C6: whatever the state of the node (its own request pending or not), an
    inbound [REQUEST(ts, nid)] first moves the clock to [max(clock, ts) + 1],
    then puts [(ts, nid)] into the queue, then ticks once more and writes
    back on the same connection one [REPLY] carrying that fresh timestamp
    and the node's own id. *)
Theorem listener_request_replies (st : node) (msg : message) (ts : Z) (nid : string) :
  msg_type msg = Some "REQUEST" ->
  msg_timestamp msg = Some ts -> msg_node_id msg = Some nid ->
  let c1 := Z.max (clock st) ts + 1 in
  let st1 := set_clock c1 st in
  let st2 := set_request_queue (PriorityQueue.put (request_queue st1) (ts, nid)) st1 in
  let st3 := set_clock (c1 + 1) st2 in
  _listener [Decoded msg] st = ([Some (protocol_msg "REPLY" (c1 + 1) (my_id st))], st3)
  /\ request_queue st3 ≡ₚ (ts, nid) :: request_queue st
  /\ replies_needed st3 = replies_needed st.
Proof.
  intros Htyp Hts Hnid. cbn [_listener serve].
  rewrite (handle_request st msg ts nid) by done.
  repeat split. apply heappush_perm.
Qed.

Lemma listener_request_replies_witness :
  _listener [Decoded (protocol_msg "REQUEST" 5 "B")]
    (set_request_queue [(2, "A")] (set_clock 3 (init "A" 9101 [Peer "127.0.0.1" 9102 "B"])))
  = ([Some (protocol_msg "REPLY" 7 "A")],
     set_clock 7 (set_request_queue [(2, "A"); (5, "B")]
       (init "A" 9101 [Peer "127.0.0.1" 9102 "B"]))).
Proof.
  exact (proj1 (listener_request_replies
    (set_request_queue [(2, "A")] (set_clock 3 (init "A" 9101 [Peer "127.0.0.1" 9102 "B"])))
    (protocol_msg "REQUEST" 5 "B") 5 "B" eq_refl eq_refl eq_refl)).
Defined.

(** C9: a message whose kind is none of [REQUEST], [RELEASE], [REPLY] is
    answered with the error status and leaves the whole state (clock, queue,
    outstanding replies) as it was. *)
Theorem listener_unknown_kind (st : node) (msg : message) :
  msg_type msg ≠ Some "REQUEST" -> msg_type msg ≠ Some "RELEASE" ->
  msg_type msg ≠ Some "REPLY" ->
  _listener [Decoded msg] st = ([Some err_msg], st)
  /\ msg_status err_msg = Some "ERR".
Proof.
  intros H1 H2 H3. split; [|done]. cbn [_listener serve]. unfold handle_message.
  by rewrite !decide_False.
Qed.

Lemma listener_unknown_kind_witness :
  let st := set_request_queue [(2, "A")] (set_clock 3 (init "A" 9101 [Peer "127.0.0.1" 9102 "B"])) in
  _listener [Decoded (protocol_msg "PING" 5 "B")] st = ([Some err_msg], st)
  /\ msg_status err_msg = Some "ERR".
Proof.
  apply listener_unknown_kind; discriminate.
Defined.

(** ** The communicator *)

Section communicator_facts.

Context (net : network).

Lemma set_replies_needed_id (st : node) : set_replies_needed (replies_needed st) st = st.
Proof. by destruct st. Qed.

Lemma send_to_peer_spec (p : peer) (msg : message) (expect_response : bool) (st : node) :
  _send_to_peer net p msg expect_response st
  = match net p msg with
    | Failed => (Ok None, set_replies_needed (replies_needed st ∖ {[peer_id p]}) st)
    | Answered resp => (Ok (if expect_response then Some resp else None), st)
    | Silent => (Ok None, st)
    end.
Proof.
  unfold _send_to_peer, try_except.
  destruct (net p msg); [done| |done]. by destruct expect_response.
Qed.

Lemma failed_peers_cons (msg : message) (p : peer) (ps : list peer) :
  failed_peers net msg (p :: ps)
  = (if decide (net p msg = Failed) then {[peer_id p]} else ∅) ∪ failed_peers net msg ps.
Proof.
  unfold failed_peers. rewrite filter_cons.
  destruct (decide (net p msg = Failed)); simpl; [done|]. by rewrite (left_id_L ∅ (∪)).
Qed.

Lemma for_each_send (msg : message) (ps : list peer) (st : node) :
  for_each ps (fun p => _send_to_peer net p msg true ;; ret tt) st
  = (Ok tt, set_replies_needed (replies_needed st ∖ failed_peers net msg ps) st).
Proof.
  revert st. induction ps as [|p ps IH]; intros st.
  - simpl. unfold ret, failed_peers. simpl.
    by rewrite difference_empty_L, set_replies_needed_id.
  - cbn [for_each]. unfold bind at 1. unfold bind at 1.
    rewrite send_to_peer_spec, failed_peers_cons.
    destruct (net p msg) eqn:Hnet; unfold ret at 1; rewrite IH.
    + rewrite decide_True by done. simpl. by rewrite difference_difference_l_L.
    + rewrite decide_False by done. by rewrite (left_id_L ∅ (∪)).
    + rewrite decide_False by done. by rewrite (left_id_L ∅ (∪)).
Qed.

Lemma broadcast_spec (msg : message) (st : node) :
  broadcast net msg st
  = (Ok tt, set_replies_needed (replies_needed st ∖ failed_peers net msg (peers st)) st).
Proof. unfold broadcast, bind, gets. apply for_each_send. Qed.

End communicator_facts.

(** ** What every method preserves *)

Section soundness.

Global Instance steps_to_preorder : PreOrder steps_to.
Proof.
  split.
  - intros st. by split.
  - intros st1 st2 st3 [] []. split; try congruence; [lia|auto].
Qed.

Lemma sound_ret {A} (a : A) : sound (ret a).
Proof. intros st. reflexivity. Qed.

Lemma sound_raise {A} (e : exn) : sound (raise (A := A) e).
Proof. intros st. reflexivity. Qed.

Lemma sound_gets {A} (f : node -> A) : sound (gets f).
Proof. intros st. reflexivity. Qed.

Lemma sound_bind {A B} (m : M A) (k : A -> M B) :
  sound m -> (forall a, sound (k a)) -> sound (bind m k).
Proof.
  intros Hm Hk st. unfold bind. specialize (Hm st).
  destruct (m st) as [[a|e] st']; simpl in *; [|done].
  etrans; [exact Hm|apply Hk].
Qed.

Lemma sound_try_except {A} (body : M A) (handler : exn -> M A) :
  sound body -> (forall e, sound (handler e)) -> sound (try_except body handler).
Proof.
  intros Hm Hk st. unfold try_except. specialize (Hm st).
  destruct (body st) as [[a|e] st']; simpl in *; [done|].
  etrans; [exact Hm|apply Hk].
Qed.

Lemma sound_modify (f : node -> node) :
  (forall st, steps_to st (f st)) -> sound (modify f).
Proof. intros Hf st. apply Hf. Qed.

Lemma sound_for_each {A} (l : list A) (body : A -> M unit) :
  (forall a, sound (body a)) -> sound (for_each l body).
Proof.
  intros Hbody. induction l as [|a l IH]; simpl; [apply sound_ret|].
  apply sound_bind; auto.
Qed.

Lemma sound_getitem {A} (field : option A) : sound (getitem field).
Proof. destruct field; [apply sound_ret|apply sound_raise]. Qed.

Lemma sound_increment_clock (other_ts : option Z) : sound (_increment_clock other_ts).
Proof. intros st. split; try done. destruct other_ts; simpl; lia. Qed.

Lemma sound_queue_put (it : item) : sound (queue_put it).
Proof. apply sound_modify. intros st. split; try done. simpl. by constructor. Qed.

Lemma sound_remove_request (nid : string) (ts : Z) : sound (_remove_request nid ts).
Proof.
  apply sound_modify. intros st. split; try done. simpl.
  apply rebuild_without_reachable.
Qed.

Lemma steps_to_set_replies_needed (r : gset string) (st : node) :
  steps_to st (set_replies_needed r st).
Proof. by split. Qed.

Lemma steps_to_set_replies_event (b : bool) (st : node) :
  steps_to st (set_replies_event b st).
Proof. by split. Qed.

Lemma steps_to_mark_reply (nid : string) (st : node) : steps_to st (mark_reply nid st).
Proof. unfold mark_reply. repeat case_decide; by split. Qed.

Create HintDb dme_sound discriminated.
Hint Resolve sound_ret sound_raise sound_gets sound_getitem sound_increment_clock
  sound_queue_put sound_remove_request steps_to_set_replies_needed
  steps_to_set_replies_event steps_to_mark_reply : dme_sound.

Ltac sound_steps :=
  repeat match goal with
  | |- sound (bind _ _) => apply sound_bind; [|intros ?]
  | |- sound (try_except _ _) => apply sound_try_except; [|intros ?]
  | |- sound (for_each _ _) => apply sound_for_each; intros ?
  | |- sound (modify _) => apply sound_modify; intros ?
  | |- sound (if ?b then _ else _) => destruct b
  | |- sound (match ?x with _ => _ end) => destruct x
  | |- _ => solve [auto with dme_sound]
  end.

Lemma sound_handle_message (msg : message) : sound (handle_message msg).
Proof. unfold handle_message. repeat case_decide; sound_steps. Qed.

Lemma steps_to_serve (r : received) (st : node) : steps_to st (serve r st).2.
Proof.
  destruct r as [| |msg]; simpl; try reflexivity.
  pose proof (sound_handle_message msg st) as Hs.
  by destruct (handle_message msg st) as [[resp|e] st'].
Qed.

Lemma steps_to_listener (conns : list received) (st : node) :
  steps_to st (_listener conns st).2.
Proof.
  revert st. induction conns as [|r conns IH]; intros st; simpl; [reflexivity|].
  pose proof (steps_to_serve r st) as Hs.
  destruct (serve r st) as [sent st']. specialize (IH st').
  destruct (_listener conns st') as [sents st'']. simpl in *. by etrans.
Qed.

Lemma sound_send_to_peer net p msg expect_response :
  sound (_send_to_peer net p msg expect_response).
Proof. unfold _send_to_peer. sound_steps. Qed.

Lemma sound_broadcast net msg : sound (broadcast net msg).
Proof. unfold broadcast. sound_steps. apply sound_send_to_peer. Qed.

Lemma sound_wait_loop ts start envs : sound (wait_loop ts start envs).
Proof.
  revert start. induction envs as [|env envs IH]; intros start; cbn [wait_loop];
    [apply sound_ret|].
  sound_steps. apply steps_to_listener.
Qed.

Lemma sound_request_critical_section net start envs :
  sound (request_critical_section net start envs).
Proof.
  unfold request_critical_section. sound_steps;
    [apply sound_broadcast|apply sound_wait_loop].
Qed.

Lemma sound_release_critical_section net ts : sound (release_critical_section net ts).
Proof. unfold release_critical_section. sound_steps. apply sound_broadcast. Qed.

Lemma node_reachable_queue (st : node) :
  node_reachable st -> queue_reachable (request_queue st).
Proof.
  induction 1 as [| st r _ IH | st net start envs _ IH | st net ts _ IH].
  - constructor.
  - by apply (steps_to_serve r st).
  - by apply (sound_request_critical_section net start envs st).
  - by apply (sound_release_critical_section net ts st).
Qed.

End soundness.

(** ** The coordinator *)

Section coordinator_facts.

Lemma head_is_spec (q : list item) (ts : Z) (me : string) :
  head_is q ts me = true <-> peek_head q = Some (ts, me).
Proof.
  unfold head_is. destruct (peek_head q) as [[head_ts head_id]|]; [|done].
  rewrite andb_true_iff, String.eqb_eq, Z.eqb_eq. naive_solver.
Qed.

(** One turn of the waiting loop. *)
Lemma wait_loop_cons (ts : Z) (start : Q) (env : wait_env) (envs : list wait_env)
    (st : node) :
  wait_loop ts start (env :: envs) st
  = let st1 := (_listener (arrived env) st).2 in
    let head_ok := head_is (request_queue st1) ts (my_id st1) in
    if bool_decide (replies_needed st1 = ∅) && head_ok
    then (Ok (Some ts), set_replies_event false st1)
    else if window_elapsed start (now env) then
      if head_ok then (Ok (Some ts), set_replies_event false st1)
      else wait_loop ts (restart env) envs st1
    else wait_loop ts start envs st1.
Proof.
  cbn [wait_loop]. unfold bind, modify, gets. cbn zeta.
  destruct (bool_decide _ && _); [done|].
  destruct (window_elapsed _ _); [|done].
  by destruct (head_is _ _ _).
Qed.


(** When the loop returns, it returns [ts], the local request is the
    queue head, and either no reply is outstanding or, in the turn [k] of
    the return, the window that began at [start] or at the restart of an
    earlier turn has elapsed. *)
Lemma wait_loop_returns (ts : Z) (start : Q) (envs : list wait_env) (st : node)
    (t : Z) (st' : node) :
  wait_loop ts start envs st = (Ok (Some t), st') ->
  t = ts
  /\ peek_head (request_queue st') = Some (ts, my_id st')
  /\ (replies_needed st' = ∅
      \/ exists k env s, envs !! k = Some env /\ window_elapsed s (now env) = true
           /\ (s = start
               \/ exists j e, (j < k)%nat /\ envs !! j = Some e /\ s = restart e)).
Proof.
  revert start st. induction envs as [|env envs IH]; intros start st Hrun; [done|].
  rewrite wait_loop_cons in Hrun. cbn zeta in Hrun.
  destruct (bool_decide _ && _) eqn:Hadmit.
  { apply andb_true_iff in Hadmit as [Hall%bool_decide_eq_true Hhead%head_is_spec].
    simplify_eq. auto. }
  destruct (window_elapsed start (now env)) eqn:Hwin.
  - destruct (head_is _ _ _) eqn:Hhead.
    + apply head_is_spec in Hhead. simplify_eq. repeat split; [done|].
      right. exists 0%nat, env, start. auto.
    + apply IH in Hrun as (-> & Hpeek & [Hall|(k & env' & s & Hk & Hs & Hor)]); auto.
      repeat split; [done|]. right. exists (S k), env', s. repeat split; [done..|].
      right. destruct Hor as [->|(j & e & Hj & He & ->)].
      * exists 0%nat, env. repeat split; [lia|done..].
      * exists (S j), e. repeat split; [lia|done..].
  - apply IH in Hrun as (-> & Hpeek & [Hall|(k & env' & s & Hk & Hs & Hor)]); auto.
    repeat split; [done|]. right. exists (S k), env', s. repeat split; [done..|].
    destruct Hor as [->|(j & e & Hj & He & ->)]; [by left|].
    right. exists (S j), e. repeat split; [lia|done..].
Qed.

(** The state in which [request_critical_section] starts waiting. *)
Lemma request_critical_section_unfold net start envs (st : node) :
  let ts := clock st + 1 in
  let msg := protocol_msg "REQUEST" ts (my_id st) in
  request_critical_section net start envs st
  = wait_loop ts start envs
      (set_replies_needed
         (list_to_set (peer_id <$> peers st) ∖ failed_peers net msg (peers st))
         (set_request_queue (PriorityQueue.put (request_queue st) (ts, my_id st))
            (set_clock ts st))).
Proof.
  cbn zeta. unfold request_critical_section.
  unfold bind at 1. cbn [_increment_clock].
  unfold bind at 1. unfold gets at 1.
  unfold bind at 1. unfold queue_put, modify at 1.
  unfold bind at 1. unfold modify at 1.
  unfold bind at 1. rewrite broadcast_spec. done.
Qed.

Lemma release_critical_section_spec net ts (st : node) :
  let msg := protocol_msg "RELEASE" (clock st + 1) (my_id st) in
  release_critical_section net ts st
  = (Ok tt,
     set_replies_needed (replies_needed st ∖ failed_peers net msg (peers st))
       (set_clock (clock st + 1)
          (set_request_queue (rebuild_without (my_id st) (request_queue st)) st))).
Proof.
  cbn zeta. unfold release_critical_section.
  unfold bind at 1. unfold gets at 1.
  unfold bind at 1. unfold _remove_request, modify at 1.
  unfold bind at 1. cbn [_increment_clock].
  rewrite broadcast_spec. done.
Qed.

(** The two ways out of the loop, on its first turn. *)
Lemma wait_loop_admits (ts : Z) (start : Q) (env : wait_env) (envs : list wait_env)
    (st : node) :
  let st1 := (_listener (arrived env) st).2 in
  peek_head (request_queue st1) = Some (ts, my_id st1) ->
  replies_needed st1 = ∅ \/ window_elapsed start (now env) = true ->
  wait_loop ts start (env :: envs) st = (Ok (Some ts), set_replies_event false st1).
Proof.
  intros st1 Hhead%head_is_spec Hwhy. rewrite wait_loop_cons. cbn zeta.
  fold st1. rewrite Hhead, andb_true_r.
  destruct Hwhy as [Hall|Hwin].
  - by rewrite bool_decide_eq_true_2.
  - rewrite Hwin. by destruct (bool_decide _).
Qed.

(** Connections from peers running this program leave the outstanding set
    and the event alone. *)
Lemma serve_peer_traffic (r : received) (st : node) :
  peer_traffic r ->
  replies_needed (serve r st).2 = replies_needed st
  /\ replies_event (serve r st).2 = replies_event st.
Proof.
  destruct r as [| |msg]; simpl; [done..|]. intros Htyp.
  destruct (msg_timestamp msg) as [ts|] eqn:Hts, (msg_node_id msg) as [nid|] eqn:Hnid;
    try (destruct Htyp as [Htyp|Htyp];
         [rewrite (handle_request st msg ts nid) by done
         |rewrite (handle_release st msg ts nid) by done]; done);
    unfold handle_message; rewrite Hts, ?Hnid;
    destruct Htyp as [-> | ->];
    rewrite ?decide_False, decide_True by done; done.
Qed.

Lemma listener_peer_traffic (conns : list received) (st : node) :
  Forall peer_traffic conns ->
  replies_needed (_listener conns st).2 = replies_needed st
  /\ replies_event (_listener conns st).2 = replies_event st.
Proof.
  intros Hall. revert st. induction Hall as [|r conns Hr _ IH]; intros st; [done|].
  simpl. destruct (serve_peer_traffic r st Hr) as [Hn He].
  destruct (serve r st) as [sent st1]. specialize (IH st1).
  destruct (_listener conns st1) as [sents st2]. simpl in *.
  split; [by rewrite (proj1 IH)|by rewrite (proj2 IH)].
Qed.

Lemma wait_loop_peer_traffic (ts : Z) (start : Q) (envs : list wait_env) (st : node) :
  Forall (fun env => Forall peer_traffic (arrived env)) envs ->
  replies_needed (wait_loop ts start envs st).2 = replies_needed st.
Proof.
  intros Hall. revert start st.
  induction Hall as [|env envs Henv _ IH]; intros start st; [done|].
  rewrite wait_loop_cons. cbn zeta.
  destruct (listener_peer_traffic (arrived env) st Henv) as [Hn _].
  repeat case_match; simpl; rewrite ?IH; done.
Qed.

(** A peer that is up answers a [REQUEST] with a [REPLY]. *)
Lemma network_of_request world (p : peer) (n : node) (ts : Z) (me : string) :
  world (peer_id p) = Some n ->
  network_of world p (protocol_msg "REQUEST" ts me)
  = Answered (protocol_msg "REPLY" (Z.max (clock n) ts + 1 + 1) (my_id n)).
Proof.
  intros Hup. unfold network_of. rewrite Hup.
  by rewrite (handle_request n _ ts me).
Qed.

Lemma failed_peers_none net msg (ps : list peer) :
  (forall p, p ∈ ps -> net p msg ≠ Failed) -> failed_peers net msg ps = ∅.
Proof.
  intros Hok. unfold failed_peers.
  induction ps as [|p ps IH]; [done|].
  rewrite filter_cons, decide_False by (apply Hok; left).
  apply IH. intros q Hq. apply Hok. by right.
Qed.

End coordinator_facts.

(** C7: in every state of the request queue (built from empty by the
    program's [put]s and [get]s, so the queue of every reachable node and
    every state in the middle of a removal), the head, which is the record
    [request_critical_section] compares its own request with, is a record
    of the queue that is minimal for the order "timestamp ascending, ties
    broken by node id lexicographically ascending"; there is no head exactly
    when the queue is empty. *)
Theorem queue_head_is_minimal (q : list item) :
  queue_reachable q ->
  (q = [] -> peek_head q = None)
  /\ match peek_head q with
     | None => q = []
     | Some m => m ∈ q /\ forall x, x ∈ q -> record_le m x
     end
  /\ forall ts me, head_is q ts me = true ->
       (ts, me) ∈ q /\ forall x, x ∈ q -> record_le (ts, me) x.
Proof.
  intros Hheap%queue_reachable_heap.
  assert (forall m, peek_head q = Some m -> m ∈ q /\ forall x, x ∈ q -> record_le m x)
    as Hmin.
  { intros m Hm. rewrite peek_head_lookup in Hm. split.
    - by eapply list_elem_of_lookup_2.
    - intros x Hx. apply item_le_record_le. by eapply is_heap_head. }
  split; [by intros ->|]. split.
  - destruct (peek_head q) as [m|] eqn:Hm; [by apply Hmin|]. by destruct q.
  - intros ts me Hhead%head_is_spec. by apply Hmin.
Qed.

Lemma queue_head_is_minimal_witness :
  let st0 := init "A" 9101 [Peer "127.0.0.1" 9102 "B"; Peer "127.0.0.1" 9103 "C"] in
  let st1 := (serve (Decoded (protocol_msg "REQUEST" 5 "B")) st0).2 in
  let st2 := (serve (Decoded (protocol_msg "REQUEST" 3 "C")) st1).2 in
  request_queue st2 = [(3, "C"); (5, "B")]
  /\ peek_head (request_queue st2) = Some (3, "C")
  /\ forall x, x ∈ request_queue st2 -> record_le (3, "C") x.
Proof.
  intros st0 st1 st2.
  destruct (queue_head_is_minimal (request_queue st2)) as (_ & Hmin & _).
  { apply node_reachable_queue. subst st2 st1 st0.
    do 2 apply reach_node_serve. apply reach_node_init. }
  repeat split; [exact (proj2 Hmin)].
Defined.

(** C3 (a run of the program in which it fails): node A has heard
    [REQUEST(2, B)] and [REQUEST(3, C)] and asks for the section with
    ticket 7; both peers answer, and the answers are dropped, so A waits
    for the window.  Eleven seconds later [RELEASE(9, C)] is being served:
    the listener's [_remove_request] has taken [(2, B)] and [(3, C)] out
    of the queue and not yet [(7, A)] when the caller tests the head.  The
    caller finds its own record first in the queue and returns 7; the
    listener then finishes, and the queue is [(2, B)], [(7, A)]: the
    request of B, never released, is ahead of the ticket just admitted. *)
Theorem acquire_overtakes_during_removal :
  let B := Peer "127.0.0.1" 9102 "B" in
  let C := Peer "127.0.0.1" 9103 "C" in
  let net : network := fun p _ => Answered (protocol_msg "REPLY" 9 (peer_id p)) in
  let heard := [Decoded (protocol_msg "REQUEST" 2 "B");
                Decoded (protocol_msg "REQUEST" 3 "C")] in
  let st := (_listener heard (init "A" 9101 [B; C])).2 in
  let waiting := request_critical_section net 0 [] st in
  let run := wait_turn_during_removal 7 0 (WaitEnv [] 11 11) 9 "C" (Draining 2)
               waiting.2 in
  waiting.1 = Ok None
  /\ request_queue waiting.2 = [(2, "B"); (3, "C"); (7, "A")]
  /\ queue_during (Draining 2) "C" (request_queue waiting.2) = [(7, "A")]
  /\ run.1 = Ok (Some 7)
  /\ request_queue run.2 = [(2, "B"); (7, "A")]
  /\ peek_head (request_queue run.2) = Some (2, "B")
  /\ wait_loop 7 0 [WaitEnv [Decoded (protocol_msg "RELEASE" 9 "C")] 11 11] waiting.2
     = (Ok None, run.2).
Proof. repeat split; vm_compute; reflexivity. Qed.

(** C1 (what the program does instead): when every peer is up and answers
    the broadcast [REQUEST] with its [REPLY] on the same connection, and the
    listener meanwhile gets what such peers send ([REQUEST]s and
    [RELEASE]s), the answers returned by [_send_to_peer] are discarded: the
    outstanding-replies set is still the set of all peer ids when
    [request_critical_section] returns or goes on waiting. *)
Theorem replies_dropped_when_peers_answer world (start : Q) (envs : list wait_env)
    (st : node) :
  (forall p, p ∈ peers st -> is_Some (world (peer_id p))) ->
  Forall (fun env => Forall peer_traffic (arrived env)) envs ->
  let req := protocol_msg "REQUEST" (clock st + 1) (my_id st) in
  (forall p, p ∈ peers st ->
     exists rts nid, network_of world p req = Answered (protocol_msg "REPLY" rts nid))
  /\ replies_needed (request_critical_section (network_of world) start envs st).2
     = list_to_set (peer_id <$> peers st).
Proof.
  intros Hup Htraffic req.
  assert (forall p, p ∈ peers st ->
    exists rts nid, network_of world p req = Answered (protocol_msg "REPLY" rts nid))
    as Hanswer.
  { intros p [n Hn]%Hup. eexists _, _. by apply network_of_request. }
  split; [done|].
  rewrite request_critical_section_unfold. cbn zeta.
  rewrite wait_loop_peer_traffic by done. simpl.
  rewrite failed_peers_none; [by rewrite difference_empty_L|].
  intros p (rts & nid & Hp)%Hanswer. fold req. by rewrite Hp.
Qed.

Lemma replies_dropped_when_peers_answer_witness :
  let B := Peer "127.0.0.1" 9102 "B" in
  let A := Peer "127.0.0.1" 9101 "A" in
  let world := fun nid : string =>
    if decide (nid = "B") then Some (init "B" 9102 [A]) else None in
  let run := request_critical_section (network_of world) 0
               [WaitEnv [] 5 5; WaitEnv [] 11 11] (init "A" 9101 [B]) in
  run.1 = Ok (Some 1) /\ replies_needed run.2 = {["B"]}.
Proof.
  intros B A world run. split; [reflexivity|].
  destruct (replies_dropped_when_peers_answer world 0
              [WaitEnv [] 5 5; WaitEnv [] 11 11] (init "A" 9101 [B])) as [_ Hkept].
  - intros p Hp. apply list_elem_of_singleton in Hp as ->. by eexists.
  - repeat constructor.
  - subst run. rewrite Hkept. simpl. by rewrite (right_id_L ∅ (∪)).
Defined.

(** What the [REPLY] branch of the listener would do with a [REPLY] that
    reached it: observe the timestamp, take [nid] out of the outstanding set,
    set the event when the set is emptied, acknowledge. *)
Lemma listener_reply_accounting (st : node) (msg : message) (ts : Z) (nid : string) :
  msg_type msg = Some "REPLY" ->
  msg_timestamp msg = Some ts -> msg_node_id msg = Some nid ->
  let st' := (serve (Decoded msg) st).2 in
  (serve (Decoded msg) st).1 = Some ack_msg
  /\ clock st' = Z.max (clock st) ts + 1
  /\ replies_needed st' = replies_needed st ∖ {[nid]}
  /\ (nid ∈ replies_needed st -> replies_needed st ∖ {[nid]} = ∅ ->
      replies_event st' = true)
  /\ request_queue st' = request_queue st.
Proof.
  intros Htyp Hts Hnid. simpl. rewrite (handle_reply st msg ts nid) by done. simpl.
  pose proof (mark_reply_spec nid (set_clock (Z.max (clock st) ts + 1) st))
    as (Hn & He & Hc & Hq).
  repeat split; done.
Qed.

(** ** Send failures *)

(** C4 as stated fails on the release path: a node admitted through the
    wait window still has its peer in the outstanding set (the peer's answer
    was discarded); if the peer is down when [RELEASE] is broadcast, the
    failure handler takes it out of the set. *)
Lemma release_failure_discards_peer :
  let B := Peer "127.0.0.1" 9102 "B" in
  let up : network := fun _ msg =>
    Answered (protocol_msg "REPLY" 3 "B") in
  let down : network := fun _ _ => Failed in
  let acquired := request_critical_section up 0 [WaitEnv [] 11 11] (init "A" 9101 [B]) in
  let released := release_critical_section down 1 acquired.2 in
  acquired.1 = Ok (Some 1)
  /\ replies_needed acquired.2 = {["B"]}
  /\ released.1 = Ok tt
  /\ replies_needed released.2 = ∅
  /\ replies_needed released.2 ≠ replies_needed acquired.2.
Proof. vm_compute. repeat split; discriminate. Qed.

(** C4 (amended): a send that fails returns "no response" ([None]) instead
    of raising and takes the peer's id out of the outstanding-replies set,
    whatever the message.  So a failure while [REQUEST] is broadcast evicts
    the failing peer, and a failure while [RELEASE] is broadcast is neither
    raised nor retried, leaves clock and queue as without failure, and
    likewise takes the failing peer out of the outstanding set. *)
Theorem send_failure_handling net (p : peer) (msg : message) (expect_response : bool)
    (start : Q) (ts : Z) (st : node) :
  net p msg = Failed ->
  _send_to_peer net p msg expect_response st
  = (Ok None, set_replies_needed (replies_needed st ∖ {[peer_id p]}) st)
  /\ (p ∈ peers st -> msg = protocol_msg "REQUEST" (clock st + 1) (my_id st) ->
      peer_id p ∉ replies_needed (request_critical_section net start [] st).2)
  /\ (msg = protocol_msg "RELEASE" (clock st + 1) (my_id st) ->
      let st' := (release_critical_section net ts st).2 in
      (release_critical_section net ts st).1 = Ok tt
      /\ replies_needed st' = replies_needed st ∖ failed_peers net msg (peers st)
      /\ (p ∈ peers st -> peer_id p ∉ replies_needed st')
      /\ clock st' = clock st + 1
      /\ request_queue st' = rebuild_without (my_id st) (request_queue st)).
Proof.
  intros Hfail.
  assert (p ∈ peers st -> peer_id p ∈ failed_peers net msg (peers st)) as Hin.
  { intros Hp. unfold failed_peers. apply elem_of_list_to_set, list_elem_of_fmap.
    exists p. split; [done|]. by apply list_elem_of_filter. }
  split; [by rewrite send_to_peer_spec, Hfail|]. split.
  - intros Hp ->. rewrite request_critical_section_unfold. simpl. set_solver.
  - intros ->. rewrite release_critical_section_spec. simpl.
    repeat split; try done. set_solver.
Qed.

Lemma send_failure_handling_witness :
  let B := Peer "127.0.0.1" 9102 "B" in
  let C := Peer "127.0.0.1" 9103 "C" in
  let net : network := fun p _ => if decide (peer_id p = "C") then Failed else Silent in
  let st := set_replies_needed {["B"; "C"]} (init "A" 9101 [B; C]) in
  _send_to_peer net C (protocol_msg "RELEASE" 1 "A") true st
  = (Ok None, set_replies_needed {["B"]} st).
Proof.
  intros B C net st.
  destruct (send_failure_handling net C (protocol_msg "RELEASE" 1 "A") true 0 0 st)
    as [Hsend _]; [reflexivity|].
  rewrite Hsend. vm_compute. reflexivity.
Defined.

(** Sending never raises, whatever the network does. *)
Lemma send_to_peer_never_raises net (p : peer) (msg : message) (expect_response : bool)
    (st : node) :
  exists o, (_send_to_peer net p msg expect_response st).1 = Ok o.
Proof. rewrite send_to_peer_spec. destruct (net p msg); eauto. Qed.

(** ** Removal from the request queue *)

Section removal_facts.

Lemma remove_request_queue (nid : string) (ts : Z) (st : node) :
  request_queue (_remove_request nid ts st).2 = rebuild_without nid (request_queue st).
Proof. done. Qed.

Lemma elem_of_rebuild_without (nid : string) (q : list item) (it : item) :
  it ∈ rebuild_without nid q <-> it ∈ q /\ it.2 ≠ nid.
Proof. rewrite rebuild_without_perm, list_elem_of_filter. tauto. Qed.

Lemma filter_all {A} (P : A -> Prop) `{!forall x, Decision (P x)} (l : list A) :
  (forall x, x ∈ l -> P x) -> filter P l = l.
Proof.
  induction l as [|a l IH]; intros Hall; [done|].
  rewrite filter_cons, decide_True by (apply Hall; left).
  f_equal. apply IH. intros x Hx. apply Hall. by right.
Qed.

(** Removal for a node id that has no record: same records, same head. *)
Lemma rebuild_without_absent (nid : string) (q : list item) :
  (forall it, it ∈ q -> it.2 ≠ nid) ->
  rebuild_without nid q ≡ₚ q
  /\ (queue_reachable q -> peek_head (rebuild_without nid q) = peek_head q).
Proof.
  intros Habsent.
  assert (rebuild_without nid q ≡ₚ q) as Hperm.
  { by rewrite rebuild_without_perm, filter_all. }
  split; [done|]. intros Hq%queue_reachable_heap.
  apply is_heap_perm_head; [apply rebuild_without_heap|done..].
Qed.

End removal_facts.

(** C2 as stated fails: with two records of node ["A"] in the queue,
    removing [("A", 5)] also removes the record of ["A"] with timestamp 3. *)
Lemma remove_request_ignores_timestamp :
  let st0 := init "L" 9101 [Peer "127.0.0.1" 9102 "A"] in
  let st1 := (serve (Decoded (protocol_msg "REQUEST" 3 "A")) st0).2 in
  let st2 := (serve (Decoded (protocol_msg "REQUEST" 5 "A")) st1).2 in
  request_queue st2 = [(3, "A"); (5, "A")]
  /\ request_queue (_remove_request "A" 5 st2).2 = []
  /\ (3, "A") ∈ request_queue st2
  /\ (3, "A") ≠ (5, "A")
  /\ (3, "A") ∉ request_queue (_remove_request "A" 5 st2).2.
Proof.
  vm_compute. repeat split; [left|discriminate|]. intros H. inversion H.
Qed.

(** C2 (amended): [_remove_request(nid, ts)] removes every record whose node
    id is [nid], whatever its timestamp, and keeps the others: the result
    does not depend on [ts], holds the records of the other node ids and no
    record of [nid]. *)
Theorem remove_request_by_node_id (nid : string) (ts ts' : Z) (st : node) :
  _remove_request nid ts st = _remove_request nid ts' st
  /\ request_queue (_remove_request nid ts st).2
     ≡ₚ filter (fun it : item => it.2 ≠ nid) (request_queue st)
  /\ (ts', nid) ∉ request_queue (_remove_request nid ts st).2.
Proof.
  split; [done|]. rewrite remove_request_queue. split.
  - apply rebuild_without_perm.
  - rewrite elem_of_rebuild_without. simpl. tauto.
Qed.

(** C8 as stated fails: the record [(5, "A")] is not in the queue, yet
    removing it changes the queue, because the record [(3, "A")] of the same
    node goes. *)
Lemma remove_absent_record_changes_queue :
  let st0 := init "L" 9101 [Peer "127.0.0.1" 9102 "A"] in
  let st1 := (serve (Decoded (protocol_msg "REQUEST" 3 "A")) st0).2 in
  request_queue st1 = [(3, "A")]
  /\ ((5, "A") ∉ request_queue st1)
  /\ request_queue (_remove_request "A" 5 st1).2 = []
  /\ request_queue (_remove_request "A" 5 st1).2 ≢ₚ request_queue st1.
Proof.
  vm_compute. repeat split.
  - intros H. apply list_elem_of_In in H. by destruct H as [H|[]].
  - intros H. by apply Permutation_nil_cons in H.
Qed.

(** C8 (amended): removing for a node id that has no record in the queue
    raises nothing and leaves the queue with the same records and the same
    head, the other fields untouched; and a second removal with the same
    arguments, or a second release with the same ticket, leaves the queue
    exactly as the first one left it. *)
Theorem remove_request_absent_noop (nid : string) (ts : Z) (st : node) :
  node_reachable st ->
  let once := (_remove_request nid ts st).2 in
  ((forall it, it ∈ request_queue st -> it.2 ≠ nid) ->
     (_remove_request nid ts st).1 = Ok tt
     /\ request_queue once ≡ₚ request_queue st
     /\ peek_head (request_queue once) = peek_head (request_queue st)
     /\ clock once = clock st
     /\ replies_needed once = replies_needed st)
  /\ _remove_request nid ts once = (Ok tt, once)
  /\ forall net net',
       let released := (release_critical_section net ts st).2 in
       (release_critical_section net' ts released).1 = Ok tt
       /\ request_queue (release_critical_section net' ts released).2
          = request_queue released.
Proof.
  intros Hreach%node_reachable_queue once.
  pose proof (queue_reachable_heap _ Hreach) as Hheap.
  split; [|split].
  - intros Habsent. subst once. rewrite remove_request_queue.
    destruct (rebuild_without_absent nid (request_queue st) Habsent) as [Hperm Hhead].
    repeat split; auto.
  - subst once. unfold _remove_request, modify. simpl.
    rewrite rebuild_without_idemp by done. done.
  - intros net net' released. subst released.
    rewrite !release_critical_section_spec. simpl.
    by rewrite rebuild_without_idemp.
Qed.

Lemma remove_request_absent_noop_witness :
  let st0 := init "A" 9101 [Peer "127.0.0.1" 9102 "B"] in
  let st1 := (serve (Decoded (protocol_msg "REQUEST" 4 "B")) st0).2 in
  let held := (request_critical_section (fun _ _ => Failed) 0 [] st1).2 in
  let once := (_remove_request "A" 7 held).2 in
  request_queue held = [(4, "B"); (7, "A")]
  /\ request_queue once = [(4, "B")]
  /\ _remove_request "A" 7 once = (Ok tt, once).
Proof.
  intros st0 st1 held once. split; [reflexivity|]. split; [reflexivity|].
  destruct (remove_request_absent_noop "A" 7 held) as (_ & Htwice & _).
  - subst held st1 st0. apply reach_node_request, reach_node_serve, reach_node_init.
  - exact Htwice.
Defined.

(** C10: [_remove_request(nid, ts)] keeps every record of another node id
    (the records of the other nodes are the same before and after, with
    their multiplicities) and deletes nothing but records of [nid]; clock
    and outstanding replies are not touched. *)
Theorem remove_request_keeps_other_nodes (nid : string) (ts : Z) (st : node) :
  let st' := (_remove_request nid ts st).2 in
  filter (fun it : item => it.2 ≠ nid) (request_queue st')
  ≡ₚ filter (fun it : item => it.2 ≠ nid) (request_queue st)
  /\ (forall it, it ∈ request_queue st' -> it ∈ request_queue st)
  /\ (forall it, it ∈ request_queue st -> it ∉ request_queue st' -> it.2 = nid)
  /\ clock st' = clock st
  /\ replies_needed st' = replies_needed st.
Proof.
  cbn zeta. rewrite remove_request_queue. repeat split.
  - rewrite rebuild_without_perm. by rewrite list_filter_filter_l.
  - intros it Hit. by apply elem_of_rebuild_without in Hit as [? _].
  - intros it Hin Hout. rewrite elem_of_rebuild_without in Hout.
    destruct (decide (it.2 = nid)); tauto.
Qed.

(** ** Further properties of the listener *)

Section listener_cases.

(** Every way the body of the listener can go. *)
Lemma handle_message_cases (msg : message) (st : node) :
  (handle_message msg st = (Raise KeyError, st)
   /\ (msg_timestamp msg = None \/ msg_node_id msg = None)
   /\ (msg_type msg = Some "REQUEST" \/ msg_type msg = Some "RELEASE"
       \/ msg_type msg = Some "REPLY"))
  \/ (handle_message msg st = (Ok err_msg, st)
      /\ msg_type msg ≠ Some "REQUEST" /\ msg_type msg ≠ Some "RELEASE"
      /\ msg_type msg ≠ Some "REPLY")
  \/ exists ts nid, msg_timestamp msg = Some ts /\ msg_node_id msg = Some nid
       /\ (msg_type msg = Some "REQUEST" \/ msg_type msg = Some "RELEASE"
           \/ msg_type msg = Some "REPLY").
Proof.
  destruct (decide (msg_type msg = Some "REQUEST")) as [Hq|Hq];
    [|destruct (decide (msg_type msg = Some "RELEASE")) as [Hl|Hl];
      [|destruct (decide (msg_type msg = Some "REPLY")) as [Hp|Hp]]].
  4:{ right. left. split; [|done]. unfold handle_message. by rewrite !decide_False. }
  all: destruct (msg_timestamp msg) as [ts|] eqn:Hts;
    [destruct (msg_node_id msg) as [nid|] eqn:Hnid|].
  all: try (right; right; exists ts, nid; by auto).
  all: left; split; [|by auto].
  all: unfold handle_message; rewrite Hts, ?Hnid.
  all: rewrite ?Hq, ?Hl, ?Hp.
  all: rewrite ?decide_False, decide_True by done; done.
Qed.

End listener_cases.



(** X2: an inbound [RELEASE(ts, nid)] is acknowledged, moves the clock to
    [max(clock, ts) + 1] and takes every record of [nid] out of the queue,
    whatever timestamp the [RELEASE] carries; the records of the other
    nodes, the outstanding replies and the event are as before. *)
Theorem listener_release_removes (st : node) (msg : message) (ts : Z) (nid : string) :
  msg_type msg = Some "RELEASE" ->
  msg_timestamp msg = Some ts -> msg_node_id msg = Some nid ->
  let st' := (serve (Decoded msg) st).2 in
  (serve (Decoded msg) st).1 = Some ack_msg
  /\ clock st' = Z.max (clock st) ts + 1
  /\ (forall t, (t, nid) ∉ request_queue st')
  /\ request_queue st' ≡ₚ filter (fun it : item => it.2 ≠ nid) (request_queue st)
  /\ replies_needed st' = replies_needed st
  /\ replies_event st' = replies_event st.
Proof.
  intros Htyp Hts Hnid. simpl. rewrite (handle_release st msg ts nid) by done. simpl.
  repeat split; [|apply rebuild_without_perm].
  intros t Hin. rewrite rebuild_without_perm in Hin.
  by apply list_elem_of_filter in Hin as [? _].
Qed.

Lemma listener_release_removes_witness :
  let st := set_request_queue [(2, "B"); (4, "A"); (6, "B")]
              (set_clock 7 (init "A" 9101 [Peer "127.0.0.1" 9102 "B"])) in
  let st' := (serve (Decoded (protocol_msg "RELEASE" 9 "B")) st).2 in
  request_queue st' = [(4, "A")] /\ clock st' = 10 /\ forall t, (t, "B") ∉ request_queue st'.
Proof.
  intros st st'. split; [reflexivity|]. split; [reflexivity|].
  exact (proj1 (proj2 (proj2 (listener_release_removes st
    (protocol_msg "RELEASE" 9 "B") 9 "B" eq_refl eq_refl eq_refl)))).
Defined.

(** X3: reply accounting is idempotent.  A [REPLY] from [nid] takes [nid]
    out of the outstanding set and sets the event exactly when that empties
    the set; a [REPLY] from a node that is not (or no longer) outstanding,
    so also a duplicate, is acknowledged and moves nothing but the clock. *)
Theorem listener_reply_idempotent (st : node) (ts1 ts2 : Z) (nid : string) :
  let st1 := (serve (Decoded (protocol_msg "REPLY" ts1 nid)) st).2 in
  let st2 := (serve (Decoded (protocol_msg "REPLY" ts2 nid)) st1).2 in
  (serve (Decoded (protocol_msg "REPLY" ts1 nid)) st).1 = Some ack_msg
  /\ (serve (Decoded (protocol_msg "REPLY" ts2 nid)) st1).1 = Some ack_msg
  /\ replies_needed st1 = replies_needed st ∖ {[nid]}
  /\ (replies_event st1 = true <->
      replies_event st = true
      \/ (nid ∈ replies_needed st /\ replies_needed st ∖ {[nid]} = ∅))
  /\ (nid ∉ replies_needed st ->
      replies_needed st1 = replies_needed st /\ replies_event st1 = replies_event st)
  /\ st2 = set_clock (Z.max (clock st1) ts2 + 1) st1
  /\ request_queue st2 = request_queue st.
Proof.
  cbn zeta. unfold serve.
  rewrite (handle_reply st _ ts1 nid) by done. cbn [fst snd].
  rewrite (handle_reply _ _ ts2 nid) by done. cbn [fst snd].
  set (sta := set_clock (Z.max (clock st) ts1 + 1) st).
  assert (replies_needed sta = replies_needed st) as Hsame by done.
  assert (replies_event sta = replies_event st) as Hev by done.
  assert (request_queue sta = request_queue st) as Hq by done.
  pose proof (mark_reply_spec nid sta) as (Hn & He & Hc & Hqq).
  assert (nid ∉ replies_needed (mark_reply nid sta)) as Hgone.
  { rewrite Hn. set_solver. }
  split; [done|]. split; [done|]. split; [by rewrite Hn|]. split; [|split; [|split]].
  - unfold mark_reply. change (replies_needed sta) with (replies_needed st).
    destruct (decide (nid ∈ replies_needed st)) as [Hin|Hnin];
      [destruct (decide (replies_needed st ∖ {[nid]} = ∅))|]; simpl; naive_solver.
  - intros Hnin. unfold mark_reply. change (replies_needed sta) with (replies_needed st).
    by rewrite decide_False.
  - unfold mark_reply at 1. by rewrite decide_False.
  - unfold mark_reply at 1. rewrite decide_False by done. simpl. by rewrite Hqq.
Qed.

(** ** Invariants of a node *)

Section node_invariants.

Lemma serve_eq_cases (r : received) (st : node) :
  (serve r st).2 = st
  \/ exists msg ts nid, r = Decoded msg
       /\ msg_timestamp msg = Some ts /\ msg_node_id msg = Some nid
       /\ ((msg_type msg = Some "REQUEST"
            /\ (serve r st).2
               = set_clock (Z.max (clock st) ts + 1 + 1)
                   (set_request_queue (PriorityQueue.put (request_queue st) (ts, nid))
                      (set_clock (Z.max (clock st) ts + 1) st)))
           \/ (msg_type msg = Some "RELEASE"
               /\ (serve r st).2
                  = set_request_queue (rebuild_without nid (request_queue st))
                      (set_clock (Z.max (clock st) ts + 1) st))
           \/ (msg_type msg = Some "REPLY"
               /\ (serve r st).2
                  = mark_reply nid (set_clock (Z.max (clock st) ts + 1) st))).
Proof.
  destruct r as [| |msg]; [by left..|].
  destruct (handle_message_cases msg st)
    as [(Hrun & _)|[(Hrun & _)|(ts & nid & Hts & Hnid & Htyp)]].
  - left. simpl. by rewrite Hrun.
  - left. simpl. by rewrite Hrun.
  - right. exists msg, ts, nid. repeat split; try done. simpl.
    destruct Htyp as [Htyp|[Htyp|Htyp]].
    + left. by rewrite (handle_request st msg ts nid).
    + right. left. by rewrite (handle_release st msg ts nid).
    + right. right. by rewrite (handle_reply st msg ts nid).
Qed.

Lemma elem_of_put (q : list item) (it x : item) :
  x ∈ PriorityQueue.put q it <-> x = it \/ x ∈ q.
Proof.
  unfold PriorityQueue.put. rewrite heappush_perm. apply elem_of_cons.
Qed.

Lemma serve_queue_bounded (r : received) (st : node) :
  queue_bounded st -> queue_bounded (serve r st).2.
Proof.
  intros Hb.
  destruct (serve_eq_cases r st)
    as [->|(msg & ts & nid & -> & _ & _ & [[_ ->]|[[_ ->]|[_ ->]]])]; [done|..].
  - intros it [->|Hin]%elem_of_put; simpl; [lia|]. specialize (Hb it Hin). lia.
  - intros it [Hin _]%elem_of_rebuild_without. simpl. specialize (Hb it Hin). lia.
  - intros it Hin.
    pose proof (mark_reply_spec nid (set_clock (Z.max (clock st) ts + 1) st))
      as (_ & _ & Hc & Hq).
    rewrite Hq in Hin. rewrite Hc. simpl in *. specialize (Hb it Hin). lia.
Qed.

Lemma listener_queue_bounded (conns : list received) (st : node) :
  queue_bounded st -> queue_bounded (_listener conns st).2.
Proof.
  revert st. induction conns as [|r conns IH]; intros st Hb; simpl; [done|].
  pose proof (serve_queue_bounded r st Hb) as Hs.
  destruct (serve r st) as [sent st1]. specialize (IH st1 Hs).
  by destruct (_listener conns st1) as [sents st2].
Qed.

Lemma wait_loop_queue_bounded ts start envs (st : node) :
  queue_bounded st -> queue_bounded (wait_loop ts start envs st).2.
Proof.
  revert start st. induction envs as [|env envs IH]; intros start st Hb; [done|].
  rewrite wait_loop_cons. cbn zeta.
  pose proof (listener_queue_bounded (arrived env) st Hb) as Hl.
  repeat case_match; simpl; auto.
Qed.

Lemma request_queue_bounded net start envs (st : node) :
  queue_bounded st -> queue_bounded (request_critical_section net start envs st).2.
Proof.
  intros Hb. rewrite request_critical_section_unfold. cbn zeta.
  apply wait_loop_queue_bounded.
  intros it [->|Hin]%elem_of_put; simpl; [lia|]. specialize (Hb it Hin). lia.
Qed.

Lemma release_queue_bounded net ts (st : node) :
  queue_bounded st -> queue_bounded (release_critical_section net ts st).2.
Proof.
  intros Hb. rewrite release_critical_section_spec. cbn zeta.
  intros it [Hin _]%elem_of_rebuild_without. simpl. specialize (Hb it Hin). lia.
Qed.

Lemma node_step_steps_to (st st' : node) : node_step st st' -> steps_to st st'.
Proof.
  destruct 1.
  - apply steps_to_serve.
  - apply sound_request_critical_section.
  - apply sound_release_critical_section.
Qed.

Lemma node_steps_steps_to (st st' : node) : rtc node_step st st' -> steps_to st st'.
Proof.
  induction 1 as [|st1 st2 st3 Hstep _ IH]; [reflexivity|].
  etrans; [by apply node_step_steps_to|done].
Qed.

Lemma node_reachable_bounded (st : node) :
  node_reachable st -> 0 <= clock st /\ queue_bounded st.
Proof.
  induction 1 as [me port ps|st r _ [Hc Hb]|st net start envs _ [Hc Hb]
                  |st net ts _ [Hc Hb]].
  - split; [done|]. intros it Hin. by apply elem_of_nil in Hin.
  - split; [|by apply serve_queue_bounded].
    pose proof (clock_mono _ _ (steps_to_serve r st)). lia.
  - split; [|by apply request_queue_bounded].
    pose proof (clock_mono _ _ (sound_request_critical_section net start envs st)). lia.
  - split; [|by apply release_queue_bounded].
    pose proof (clock_mono _ _ (sound_release_critical_section net ts st)). lia.
Qed.


End node_invariants.

(** X4: in every state a node can reach, the clock is not negative and no
    queued record carries a timestamp above the clock; so the timestamp
    [clock + 1] of the node's next request is above every timestamp in its
    queue. *)
Theorem reachable_queue_below_clock (st : node) :
  node_reachable st ->
  0 <= clock st
  /\ forall it, it ∈ request_queue st -> it.1 <= clock st /\ it.1 < clock st + 1.
Proof.
  intros [Hc Hb]%node_reachable_bounded.
  split; [done|]. intros it Hin. specialize (Hb it Hin). lia.
Qed.

Lemma reachable_queue_below_clock_witness :
  let st0 := init "A" 9101 [Peer "127.0.0.1" 9102 "B"] in
  let st1 := (serve (Decoded (protocol_msg "REQUEST" 40 "B")) st0).2 in
  let st2 := (request_critical_section (fun _ _ => Silent) 0 [] st1).2 in
  request_queue st2 = [(40, "B"); (43, "A")] /\ clock st2 = 43
  /\ forall it, it ∈ request_queue st2 -> it.1 <= clock st2 /\ it.1 < clock st2 + 1.
Proof.
  intros st0 st1 st2. split; [reflexivity|]. split; [reflexivity|].
  apply (reachable_queue_below_clock st2).
  subst st2 st1 st0. apply reach_node_request, reach_node_serve, reach_node_init.
Defined.

(** X5: the tickets of a node strictly increase: an acquisition that returns
    after any steps of the node that follow an earlier acquisition returns a
    larger ticket; and no step ever lowers the clock or changes the node's
    id, port or peers. *)
Theorem tickets_increase net1 start1 envs1 net2 start2 envs2
    (st st1 st2 st3 : node) (t1 t2 : Z) :
  request_critical_section net1 start1 envs1 st = (Ok (Some t1), st1) ->
  rtc node_step st1 st2 ->
  request_critical_section net2 start2 envs2 st2 = (Ok (Some t2), st3) ->
  t1 < t2
  /\ clock st <= clock st1 <= clock st2 /\ clock st2 <= clock st3
  /\ my_id st3 = my_id st /\ my_port st3 = my_port st /\ peers st3 = peers st.
Proof.
  intros Hrun1 Hsteps%node_steps_steps_to Hrun2.
  pose proof (sound_request_critical_section net1 start1 envs1 st) as H1.
  pose proof (sound_request_critical_section net2 start2 envs2 st2) as H2.
  rewrite Hrun1 in H1. rewrite Hrun2 in H2. simpl in *.
  rewrite request_critical_section_unfold in Hrun1, Hrun2. cbn zeta in Hrun1, Hrun2.
  assert (t1 <= clock st1) as Ht1.
  { pose proof (sound_wait_loop (clock st + 1) start1 envs1) as Hw.
    apply wait_loop_returns in Hrun1 as Hret. destruct Hret as [-> _].
    match type of Hrun1 with wait_loop _ _ _ ?s = _ => specialize (Hw s) end.
    rewrite Hrun1 in Hw. apply clock_mono in Hw. simpl in Hw. lia. }
  assert (t2 = clock st2 + 1) as -> by (by apply wait_loop_returns in Hrun2 as [? _]).
  destruct H1, H2, Hsteps. repeat split; try lia; congruence.
Qed.

Lemma tickets_increase_witness :
  let st := init "A" 9101 [] in
  let run1 := request_critical_section (fun _ _ => Failed) 0 [WaitEnv [] 1 1] st in
  let st2 := (release_critical_section (fun _ _ => Failed) 1 run1.2).2 in
  let run2 := request_critical_section (fun _ _ => Failed) 5 [WaitEnv [] 6 6] st2 in
  run1.1 = Ok (Some 1) /\ run2.1 = Ok (Some 3) /\ 1 < 3.
Proof.
  intros st run1 st2 run2. split; [reflexivity|]. split; [reflexivity|].
  apply (tickets_increase (fun _ _ => Failed) 0 [WaitEnv [] 1 1]
           (fun _ _ => Failed) 5 [WaitEnv [] 6 6] st run1.2 st2 run2.2 1 3).
  - reflexivity.
  - apply rtc_once. subst st2. apply step_release.
  - reflexivity.
Defined.

(** ** Admission *)

Section admission_facts.

(** The records below the caller's own remain while no [RELEASE] is served. *)
Lemma serve_no_release_keeps (r : received) (st : node) (x : item) :
  no_release r -> x ∈ request_queue st -> x ∈ request_queue (serve r st).2.
Proof.
  intros Hnr Hx.
  destruct (serve_eq_cases r st)
    as [->|(msg & ts & nid & -> & _ & _ & [[_ ->]|[[Htyp _]|[_ ->]]])]; [done|..].
  - simpl. apply elem_of_put. by right.
  - by simpl in Hnr.
  - pose proof (mark_reply_spec nid (set_clock (Z.max (clock st) ts + 1) st))
      as (_ & _ & _ & Hq).
    by rewrite Hq.
Qed.

Lemma listener_no_release_keeps (conns : list received) (st : node) (x : item) :
  Forall no_release conns -> x ∈ request_queue st ->
  x ∈ request_queue (_listener conns st).2.
Proof.
  intros Hall. revert st. induction Hall as [|r conns Hr _ IH]; intros st Hx; [done|].
  simpl. pose proof (serve_no_release_keeps r st x Hr Hx) as Hs.
  destruct (serve r st) as [sent st1]. specialize (IH st1 Hs).
  by destruct (_listener conns st1) as [sents st2].
Qed.

(** A record with a smaller timestamp in a reachable queue keeps the
    caller's request off the head. *)
Lemma head_is_blocked (q : list item) (x : item) (ts : Z) (me : string) :
  queue_reachable q -> x ∈ q -> x.1 < ts -> head_is q ts me = false.
Proof.
  intros Hq Hx Hlt. destruct (head_is q ts me) eqn:Hhead; [|done].
  apply head_is_spec in Hhead. rewrite peek_head_lookup in Hhead.
  pose proof (is_heap_head q _ (queue_reachable_heap q Hq) Hhead x Hx) as Hle.
  apply item_le_spec in Hle. simpl in Hle. lia.
Qed.

Lemma wait_loop_blocked (ts : Z) (start : Q) (envs : list wait_env) (st : node)
    (x : item) :
  Forall (fun env => Forall no_release (arrived env)) envs ->
  queue_reachable (request_queue st) -> x ∈ request_queue st -> x.1 < ts ->
  (wait_loop ts start envs st).1 = Ok None.
Proof.
  intros Hall. revert start st.
  induction Hall as [|env envs Henv _ IH]; intros start st Hq Hx Hlt; [done|].
  rewrite wait_loop_cons. cbn zeta.
  pose proof (listener_no_release_keeps (arrived env) st x Henv Hx) as Hx1.
  pose proof (queue_reach _ _ (steps_to_listener (arrived env) st) Hq) as Hq1.
  rewrite (head_is_blocked _ x ts _ Hq1 Hx1 Hlt), andb_false_r.
  destruct (window_elapsed start (now env)); auto.
Qed.

Lemma failed_peers_all net msg (ps : list peer) :
  (forall p, p ∈ ps -> net p msg = Failed) ->
  failed_peers net msg ps = list_to_set (peer_id <$> ps).
Proof.
  intros Hall. unfold failed_peers. f_equal. f_equal.
  induction ps as [|p ps IH]; [done|].
  rewrite filter_cons, decide_True by (apply Hall; left).
  f_equal. apply IH. intros q Hq. apply Hall. by right.
Qed.

Lemma listener_nil_conns (st : node) : (_listener [] st).2 = st.
Proof. done. Qed.

Lemma listener_cons (r : received) (conns : list received) (st : node) :
  (_listener (r :: conns) st).2 = (_listener conns (serve r st).2).2.
Proof.
  cbn [_listener]. destruct (serve r st) as [sent st1]. cbn [snd].
  by destruct (_listener conns st1) as [sents st2].
Qed.

Lemma serve_reply (ts : Z) (nid : string) (st : node) :
  (serve (Decoded (protocol_msg "REPLY" ts nid)) st).2
  = mark_reply nid (set_clock (Z.max (clock st) ts + 1) st).
Proof.
  change (serve (Decoded (protocol_msg "REPLY" ts nid)) st)
    with (match handle_message (protocol_msg "REPLY" ts nid) st with
          | (Ok resp, st') => (Some resp, st')
          | (Raise _, st') => (None, st')
          end).
  by rewrite (handle_reply st _ ts nid).
Qed.

(** Serving [REPLY]s takes their senders out of the outstanding set and
    leaves the queue alone. *)
Lemma listener_reply_conns (rs : list (Z * string)) (st : node) :
  replies_needed (_listener (reply_conns rs) st).2
  = replies_needed st ∖ list_to_set rs.*2
  /\ request_queue (_listener (reply_conns rs) st).2 = request_queue st
  /\ my_id (_listener (reply_conns rs) st).2 = my_id st.
Proof.
  revert st. induction rs as [|[ts nid] rs IH]; intros st.
  { simpl. by rewrite difference_empty_L. }
  unfold reply_conns. rewrite fmap_cons. fold (reply_conns rs).
  rewrite listener_cons. cbn [fst snd]. rewrite serve_reply.
  set (st1 := mark_reply nid _).
  pose proof (mark_reply_spec nid (set_clock (Z.max (clock st) ts + 1) st))
    as (Hn & _ & _ & Hq). fold st1 in Hn, Hq.
  assert (my_id st1 = my_id st) as Hid.
  { apply (same_id _ _ (steps_to_mark_reply nid (set_clock (Z.max (clock st) ts + 1) st))). }
  destruct (IH st1) as (IHn & IHq & IHid).
  rewrite IHn, IHq, IHid, Hn, Hq, Hid. split; [|done]. simpl. set_solver.
Qed.

End admission_facts.

Section admission_more.

Lemma wait_loop_no_release_keeps ts start envs (st : node) (x : item) :
  Forall (fun env => Forall no_release (arrived env)) envs ->
  x ∈ request_queue st -> x ∈ request_queue (wait_loop ts start envs st).2.
Proof.
  intros Hall. revert start st.
  induction Hall as [|env envs Henv _ IH]; intros start st Hx; [done|].
  rewrite wait_loop_cons. cbn zeta.
  pose proof (listener_no_release_keeps (arrived env) st x Henv Hx) as Hx1.
  repeat case_match; simpl; auto.
Qed.

Lemma node_reachable_listener (conns : list received) (st : node) :
  node_reachable st -> node_reachable (_listener conns st).2.
Proof.
  revert st. induction conns as [|r conns IH]; intros st Hst; [done|].
  rewrite listener_cons. apply IH. by constructor.
Qed.

Lemma put_empty (it : item) : PriorityQueue.put [] it = [it].
Proof. done. Qed.

Lemma StronglySorted_record_le (l : list item) :
  StronglySorted item_le l -> StronglySorted record_le l.
Proof.
  induction 1 as [|x l _ IH Hx]; constructor; [done|].
  eapply Forall_impl; [exact Hx|]. intros y Hy. by apply item_le_record_le.
Qed.

End admission_more.

(** X6: a node never overtakes a request it already knows.  If the queue of
    a reachable node is not empty when it asks for the critical section,
    then, whichever peers fail and however long it waits, the call keeps
    waiting, with its own request queued, as long as the listener serves no
    [RELEASE]. *)
Theorem waits_behind_known_request net (start : Q) (envs : list wait_env) (st : node) :
  node_reachable st -> request_queue st ≠ [] ->
  Forall (fun env => Forall no_release (arrived env)) envs ->
  (request_critical_section net start envs st).1 = Ok None
  /\ (clock st + 1, my_id st)
     ∈ request_queue (request_critical_section net start envs st).2.
Proof.
  intros Hreach Hne Hall.
  assert (exists x, x ∈ request_queue st) as [x Hx].
  { destruct (request_queue st) as [|x q]; [done|]. exists x. left. }
  assert (x.1 < clock st + 1) as Hlt.
  { destruct (node_reachable_bounded st Hreach) as [_ Hb]. specialize (Hb x Hx). lia. }
  rewrite request_critical_section_unfold. cbn zeta. split.
  - apply (wait_loop_blocked _ _ _ _ x); [done| | |done]; simpl.
    + apply reach_put. by apply node_reachable_queue.
    + apply elem_of_put. by right.
  - apply wait_loop_no_release_keeps; [done|]. simpl. apply elem_of_put. by left.
Qed.

Lemma waits_behind_known_request_witness :
  let st0 := init "A" 9101 [Peer "127.0.0.1" 9102 "B"] in
  let st1 := (serve (Decoded (protocol_msg "REQUEST" 4 "B")) st0).2 in
  let envs := [WaitEnv [] 11 11; WaitEnv [Decoded (protocol_msg "REQUEST" 1 "C")] 30 30;
               WaitEnv [] 50 50] in
  (request_critical_section (fun _ _ => Failed) 0 envs st1).1 = Ok None.
Proof.
  intros st0 st1 envs.
  apply (waits_behind_known_request (fun _ _ => Failed) 0 envs st1).
  - subst st1 st0. apply reach_node_serve, reach_node_init.
  - discriminate.
  - repeat constructor; discriminate.
Defined.

(** X7: peer failure tolerance.  With an empty queue, when the send to
    every peer fails (or there is no peer), the caller is admitted in the
    first turn of its loop with the ticket [clock + 1]: no reply is
    outstanding, its request is the only record of the queue, the event is
    cleared. *)
Theorem acquires_when_peers_down net (start : Q) (env : wait_env)
    (envs : list wait_env) (st : node) :
  request_queue st = [] ->
  (forall p, p ∈ peers st ->
     net p (protocol_msg "REQUEST" (clock st + 1) (my_id st)) = Failed) ->
  arrived env = [] ->
  request_critical_section net start (env :: envs) st
  = (Ok (Some (clock st + 1)),
     set_replies_event false
       (set_replies_needed ∅
          (set_request_queue [(clock st + 1, my_id st)] (set_clock (clock st + 1) st)))).
Proof.
  intros Hq Hdown Harr. rewrite request_critical_section_unfold. cbn zeta.
  rewrite failed_peers_all, difference_diag_L, Hq, put_empty by done.
  rewrite wait_loop_admits; rewrite Harr, listener_nil_conns; simpl; auto.
Qed.

Lemma acquires_when_peers_down_witness :
  let st := set_clock 6 (init "A" 9101 [Peer "127.0.0.1" 9102 "B"; Peer "127.0.0.1" 9103 "C"]) in
  (request_critical_section (fun _ _ => Failed) 0 [WaitEnv [] (1 # 10) 0] st).1
  = Ok (Some 7).
Proof.
  intros st.
  rewrite (acquires_when_peers_down (fun _ _ => Failed) 0 (WaitEnv [] (1 # 10) 0) [] st);
    reflexivity.
Defined.

Lemma outstanding_covered (ps : list peer) (F : gset string) (ids : list string) :
  (forall p, p ∈ ps -> peer_id p ∈ ids) ->
  (list_to_set (peer_id <$> ps) ∖ F) ∖ list_to_set ids = (∅ : gset string).
Proof.
  intros Hcover. apply set_eq. intros x.
  rewrite !elem_of_difference, !elem_of_list_to_set, list_elem_of_fmap.
  split; [|set_solver]. intros [[(p & -> & Hp) _] Hnot]. destruct Hnot. by apply Hcover.
Qed.

(** X9: the quorum path.  With an empty queue, if in the first turn of the
    loop the listener has served a [REPLY] from every peer, the caller
    returns its ticket [clock + 1] at once, whatever the clock reads: no
    reply is outstanding, the event is cleared and its request is the head
    of the queue. *)
Theorem admitted_on_replies net (start : Q) (env : wait_env) (envs : list wait_env)
    (rs : list (Z * string)) (st : node) :
  request_queue st = [] ->
  (forall p, p ∈ peers st -> peer_id p ∈ rs.*2) ->
  arrived env = reply_conns rs ->
  let run := request_critical_section net start (env :: envs) st in
  run.1 = Ok (Some (clock st + 1))
  /\ replies_needed run.2 = ∅
  /\ replies_event run.2 = false
  /\ request_queue run.2 = [(clock st + 1, my_id st)].
Proof.
  intros Hq Hcover Harr run. subst run.
  rewrite request_critical_section_unfold. cbn zeta.
  rewrite Hq, put_empty.
  set (stb := set_replies_needed _ _).
  destruct (listener_reply_conns rs stb) as (Hn & Hqq & Hid).
  assert (replies_needed (_listener (reply_conns rs) stb).2 = ∅) as Hnone.
  { rewrite Hn. simpl. by apply outstanding_covered. }
  rewrite wait_loop_admits; rewrite Harr.
  - simpl. by rewrite Hnone, Hqq.
  - by rewrite Hqq, Hid.
  - by left.
Qed.

Lemma admitted_on_replies_witness :
  let st := init "A" 9101 [Peer "127.0.0.1" 9102 "B"; Peer "127.0.0.1" 9103 "C"] in
  let net : network := fun _ _ => Silent in
  let env := WaitEnv (reply_conns [(5, "C"); (2, "B"); (9, "C")]) 1 1 in
  (request_critical_section net 0 [env] st).1 = Ok (Some 1)
  /\ replies_needed (request_critical_section net 0 [env] st).2 = ∅.
Proof.
  intros st net env.
  destruct (admitted_on_replies net 0 env [] [(5, "C"); (2, "B"); (9, "C")] st)
    as (Hret & Hnone & _); [reflexivity| |reflexivity|by split].
  intros p Hp. simpl.
  apply elem_of_cons in Hp as [->|Hp]; [set_solver|].
  apply list_elem_of_singleton in Hp as ->. set_solver.
Defined.





(** X12: after a removal on a reachable node, by [_remove_request] itself
    or by a release, the list of the queue is in ascending order of
    (timestamp, node id). *)
Theorem removal_leaves_queue_sorted (nid : string) (ts : Z) net (st : node) :
  node_reachable st ->
  StronglySorted record_le (request_queue (_remove_request nid ts st).2)
  /\ StronglySorted record_le (request_queue (release_critical_section net ts st).2).
Proof.
  intros Hheap%node_reachable_queue%queue_reachable_heap. split.
  - rewrite remove_request_queue. by apply StronglySorted_record_le, rebuild_without_sorted.
  - rewrite release_critical_section_spec. simpl.
    by apply StronglySorted_record_le, rebuild_without_sorted.
Qed.

Lemma removal_leaves_queue_sorted_witness :
  let st0 := init "A" 9101 [Peer "127.0.0.1" 9102 "B"] in
  let st1 := (_listener [Decoded (protocol_msg "REQUEST" 5 "A");
                         Decoded (protocol_msg "REQUEST" 3 "B");
                         Decoded (protocol_msg "REQUEST" 7 "C");
                         Decoded (protocol_msg "REQUEST" 3 "A");
                         Decoded (protocol_msg "REQUEST" 4 "D")] st0).2 in
  request_queue st1 = [(3, "A"); (3, "B"); (7, "C"); (5, "A"); (4, "D")]
  /\ request_queue (_remove_request "B" 0 st1).2 = [(3, "A"); (4, "D"); (5, "A"); (7, "C")]
  /\ StronglySorted record_le (request_queue (_remove_request "B" 0 st1).2).
Proof.
  intros st0 st1. split; [reflexivity|]. split; [reflexivity|].
  apply (removal_leaves_queue_sorted "B" 0 (fun _ _ => Failed) st1).
  subst st1 st0. apply node_reachable_listener, reach_node_init.
Defined.

(** ** [client.py]: start-up *)

Section startup_facts.

Context (py_int : string -> option Z).

(** The peer arguments, when they come in threes. *)
Lemma parse_peers_spec (n : nat) (args : list string) :
  length args = (3 * n)%nat ->
  (exists ps, parse_peers py_int args = inr ps /\ length ps = n
     /\ forall j p, ps !! j = Some p ->
          args !! (3 * j)%nat = Some (peer_host p)
          /\ (exists s, args !! S (3 * j) = Some s /\ py_int s = Some (peer_port p))
          /\ args !! S (S (3 * j)) = Some (peer_id p))
  \/ (parse_peers py_int args = inl StartValueError
      /\ exists j s, args !! S (3 * j) = Some s /\ py_int s = None).
Proof.
  revert args. induction n as [|n IH]; intros args Hlen.
  { destruct args; [|done]. left. exists []. repeat split; try done.
    all: intros j p Hp; by rewrite lookup_nil in Hp. }
  destruct args as [|host [|port_text [|pid args]]]; simpl in Hlen; try lia.
  cbn [parse_peers].
  destruct (py_int port_text) as [port|] eqn:Hport.
  2:{ right. split; [done|]. by exists 0%nat, port_text. }
  destruct (IH args) as [(ps & -> & Hps & Hidx)|(-> & j & s & Hj & Hs)]; [lia|..].
  - left. exists (Peer host port pid :: ps). split; [done|]. split; [simpl; lia|].
    intros [|j] p Hp; simplify_eq/=.
    + repeat split; eauto.
    + replace (j + S (j + S (j + 0)))%nat with (S (S (3 * j))) by lia. simpl.
      destruct (Hidx j p Hp) as (? & ? & ?). by repeat split.
  - right. split; [done|]. exists (S j), s. split; [|done].
    replace (3 * S j)%nat with (S (S (S (3 * j)))) by lia. done.
Qed.

Lemma parse_peers_command_line (show : Z -> string) (ps : list peer) :
  (forall p, p ∈ ps -> py_int (show (peer_port p)) = Some (peer_port p)) ->
  parse_peers py_int (peer_args show ps) = inr ps.
Proof.
  induction ps as [|[host port pid] ps IH]; intros Hshow; [done|].
  assert (py_int (show port) = Some port) as Hport.
  { apply (Hshow (Peer host port pid)). left. }
  simpl. rewrite Hport, IH; [done|]. intros p Hp. apply Hshow. by right.
Qed.

Lemma peer_args_length (show : Z -> string) (ps : list peer) :
  length (peer_args show ps) = (3 * length ps)%nat.
Proof. induction ps as [|p ps IH]; simpl; [done|]. rewrite IH. lia. Qed.

End startup_facts.

Section startup_outcomes.

Context (py_int : string -> option Z).

(** Either the usage line, or five leading arguments followed by the
    arguments of at least one peer, three for each. *)
Lemma parse_argv_cases (argv : list string) :
  (parse_argv py_int argv = StartUsage
   /\ ((length argv < 8)%nat \/ (Z.of_nat (length argv) - 5) mod 3 ≠ 0))
  \/ exists script me dp sh sp rest n,
       argv = script :: me :: dp :: sh :: sp :: rest
       /\ length rest = (3 * S n)%nat
       /\ (8 <= length argv)%nat /\ (Z.of_nat (length argv) - 5) mod 3 = 0
       /\ parse_argv py_int argv
          = match py_int dp with
            | None => StartValueError
            | Some dme_port =>
                match py_int sp with
                | None => StartValueError
                | Some server_port =>
                    match parse_peers py_int rest with
                    | inl e => e
                    | inr ps => Started (Config me dme_port sh server_port ps)
                    end
                end
            end.
Proof.
  unfold parse_argv.
  destruct (Z.ltb_spec (Z.of_nat (length argv)) 8) as [Hshort|Hlong]; simpl.
  { left. split; [done|]. left. lia. }
  destruct (Z.eqb_spec ((Z.of_nat (length argv) - 5) mod 3) 0) as [Hmod|Hmod]; simpl.
  2:{ left. split; [done|]. by right. }
  right.
  destruct argv as [|script [|me [|dp [|sh [|sp rest]]]]]; simpl in Hlong; try lia.
  apply Z.mod_divide in Hmod as [z Hz]; [|done].
  exists script, me, dp, sh, sp, rest, (Z.to_nat z - 1)%nat.
  simpl length in *. repeat split; try done; try lia.
  rewrite Hz. apply Z.mod_mul. done.
Qed.

End startup_outcomes.

(** X13: how the start of the client ends.  The usage line is printed
    exactly when fewer than eight arguments are given or the arguments after
    the fifth do not come in threes; otherwise no index of [sys.argv] is out
    of range, and the start fails with [ValueError] exactly when [int()]
    rejects one of the port arguments (positions 2, 4, 6, 9, 12, ...). *)
Theorem parse_argv_outcome (py_int : string -> option Z) (argv : list string) :
  (parse_argv py_int argv = StartUsage <->
     (length argv < 8)%nat \/ (Z.of_nat (length argv) - 5) mod 3 ≠ 0)
  /\ parse_argv py_int argv ≠ StartIndexError
  /\ (parse_argv py_int argv = StartValueError <->
        (8 <= length argv)%nat /\ (Z.of_nat (length argv) - 5) mod 3 = 0
        /\ exists k s, numeric_position k /\ argv !! k = Some s /\ py_int s = None).
Proof.
  destruct (parse_argv_cases py_int argv)
    as [[-> Hwhy]|(script & me & dp & sh & sp & rest & n & -> & Hlen & Hlong & Hmod & ->)].
  { split; [done|]. split; [done|]. split; [done|]. intros (? & ? & _). lia. }
  assert (forall k s, numeric_position k ->
    (script :: me :: dp :: sh :: sp :: rest) !! k = Some s ->
    (k = 2%nat /\ s = dp) \/ (k = 4%nat /\ s = sp)
    \/ exists j, k = (6 + 3 * j)%nat /\ rest !! S (3 * j) = Some s) as Hpos.
  { intros k s [->|[->|[j ->]]] Hk; simplify_eq/=; eauto. }
  destruct (py_int dp) as [dme_port|] eqn:Hdp.
  2:{ split; [split; [done|lia]|]. split; [done|]. split; [|done].
      intros _. repeat split; try done. exists 2%nat, dp. repeat split; [by left|done..]. }
  destruct (py_int sp) as [server_port|] eqn:Hsp.
  2:{ split; [split; [done|lia]|]. split; [done|]. split; [|done].
      intros _. repeat split; try done.
      exists 4%nat, sp. repeat split; [by right; left|done..]. }
  destruct (parse_peers_spec py_int (S n) rest Hlen)
    as [(ps & -> & Hps & Hidx)|(-> & j & s & Hj & Hs)].
  - split; [split; [done|lia]|]. split; [done|]. split; [done|].
    intros (_ & _ & k & s & Hk & Hlook & Hnone).
    destruct (Hpos k s Hk Hlook) as [[_ ->]|[[_ ->]|(j & -> & Hj)]]; [congruence..|].
    assert (j < length ps)%nat as Hjlt.
    { apply lookup_lt_Some in Hj. lia. }
    destruct (lookup_lt_is_Some_2 ps j Hjlt) as [p Hp].
    destruct (Hidx j p Hp) as (_ & (s' & Hs' & Hint) & _). congruence.
  - split; [split; [done|lia]|]. split; [done|]. split; [|done].
    intros _. repeat split; try done.
    exists (6 + 3 * j)%nat, s. repeat split; [|done..]. right. right. by exists j.
Qed.

(** X14: a started client has at least one peer.  When the start succeeds,
    the command line has [5 + 3 n] arguments for the [n >= 1] peers of the
    configuration, in the order given; the id and the two ports are the
    arguments 1, 2 and 4, and peer [j] is read from the arguments
    [5 + 3 j], [6 + 3 j] (through [int()]) and [7 + 3 j]. *)
Theorem parse_argv_started (py_int : string -> option Z) (argv : list string)
    (cfg : config) :
  parse_argv py_int argv = Started cfg ->
  length argv = (5 + 3 * length (cfg_peers cfg))%nat
  /\ cfg_peers cfg ≠ []
  /\ peers (start_node cfg) = cfg_peers cfg
  /\ argv !! 1%nat = Some (cfg_my_id cfg)
  /\ (exists s, argv !! 2%nat = Some s /\ py_int s = Some (cfg_dme_port cfg))
  /\ argv !! 3%nat = Some (cfg_server_host cfg)
  /\ (exists s, argv !! 4%nat = Some s /\ py_int s = Some (cfg_server_port cfg))
  /\ forall j p, cfg_peers cfg !! j = Some p ->
       argv !! (5 + 3 * j)%nat = Some (peer_host p)
       /\ (exists s, argv !! (6 + 3 * j)%nat = Some s /\ py_int s = Some (peer_port p))
       /\ argv !! (7 + 3 * j)%nat = Some (peer_id p).
Proof.
  destruct (parse_argv_cases py_int argv)
    as [[-> Hwhy]|(script & me & dp & sh & sp & rest & n & -> & Hlen & Hlong & Hmod & ->)];
    [done|].
  destruct (py_int dp) as [dme_port|] eqn:Hdp; [|done].
  destruct (py_int sp) as [server_port|] eqn:Hsp; [|done].
  destruct (parse_peers_spec py_int (S n) rest Hlen)
    as [(ps & -> & Hps & Hidx)|(-> & _)]; [|done].
  intros [= <-]. simpl.
  split; [lia|]. split; [by destruct ps|]. split; [done|]. split; [done|].
  split; [by exists dp|]. split; [done|]. split; [by exists sp|].
  intros j p Hp. destruct (Hidx j p Hp) as (Hh & Hport & Hi). by repeat split.
Qed.

Lemma parse_argv_started_witness :
  let py_int := fun s : string =>
    if decide (s = "9101") then Some 9101
    else if decide (s = "9000") then Some 9000
    else if decide (s = "9102") then Some 9102 else None in
  let argv := ["client.py"; "Joel"; "9101"; "127.0.0.1"; "9000";
               "127.0.0.1"; "9102"; "Alice"] in
  parse_argv py_int argv
  = Started (Config "Joel" 9101 "127.0.0.1" 9000 [Peer "127.0.0.1" 9102 "Alice"])
  /\ length argv = 8%nat.
Proof.
  intros py_int argv. split; [reflexivity|].
  exact (proj1 (parse_argv_started py_int argv
    (Config "Joel" 9101 "127.0.0.1" 9000 [Peer "127.0.0.1" 9102 "Alice"]) eq_refl)).
Defined.

(** X15: the command line of the usage message is read back.  For a
    configuration with at least one peer whose ports [int()] reads back from
    the way they are written, the command line made of the script, the id,
    the ports and the peers starts the client with that configuration. *)
Theorem parse_argv_command_line (py_int : string -> option Z) (show : Z -> string)
    (script : string) (cfg : config) :
  cfg_peers cfg ≠ [] ->
  py_int (show (cfg_dme_port cfg)) = Some (cfg_dme_port cfg) ->
  py_int (show (cfg_server_port cfg)) = Some (cfg_server_port cfg) ->
  (forall p, p ∈ cfg_peers cfg -> py_int (show (peer_port p)) = Some (peer_port p)) ->
  parse_argv py_int (command_line show script cfg) = Started cfg.
Proof.
  intros Hne Hdp Hsp Hps.
  destruct (parse_argv_cases py_int (command_line show script cfg))
    as [[_ Hwhy]|(s0 & me & dp & sh & sp & rest & n & Hargv & _ & _ & _ & ->)].
  { exfalso. unfold command_line in Hwhy. rewrite length_app, peer_args_length in Hwhy.
    simpl length in Hwhy. destruct (cfg_peers cfg) as [|p ps]; [done|].
    simpl length in Hwhy. destruct Hwhy as [?|Hmod]; [lia|]. apply Hmod.
    replace (Z.of_nat (5 + 3 * S (length ps)) - 5) with ((1 + Z.of_nat (length ps)) * 3)
      by lia.
    by apply Z.mod_mul. }
  unfold command_line in Hargv. simpl in Hargv. simplify_eq.
  rewrite Hdp, Hsp, parse_peers_command_line by done. by destruct cfg.
Qed.

Lemma parse_argv_command_line_witness :
  let py_int := fun s : string =>
    if decide (s = "a") then Some 9101
    else if decide (s = "b") then Some 9000
    else if decide (s = "c") then Some 9102 else None in
  let show := fun z : Z =>
    if decide (z = 9101) then "a" else if decide (z = 9000) then "b" else "c" in
  let cfg := Config "Joel" 9101 "127.0.0.1" 9000 [Peer "127.0.0.1" 9102 "Alice"] in
  parse_argv py_int (command_line show "client.py" cfg) = Started cfg.
Proof.
  intros py_int show cfg.
  apply (parse_argv_command_line py_int show "client.py" cfg); try reflexivity.
  - discriminate.
  - intros p Hp. apply list_elem_of_singleton in Hp as ->. reflexivity.
Defined.

(** ** [client.py]: the command loop *)

Section cli_facts.

Context (sm : str_methods).

Lemma listener_app (conns1 conns2 : list received) (st : node) :
  (_listener (conns1 ++ conns2) st).2 = (_listener conns2 (_listener conns1 st).2).2.
Proof.
  revert st. induction conns1 as [|r conns1 IH]; intros st; [done|].
  rewrite <-app_comm_cons, !listener_cons. apply IH.
Qed.

(** A turn for a line that is not a post. *)
Lemma cli_turn_not_post (inp : cli_input) (st : node) :
  ¬ is_post sm inp ->
  (cli_turn sm inp st).2 = (_listener (heard inp) st).2
  /\ Forall (fun q => q = ViewRequest) (cli_turn sm inp st).1.2
  /\ (cli_turn sm inp st).1.1 ≠ Some Waiting.
Proof.
  intros Hnp. unfold cli_turn, is_post in *. cbn zeta in *.
  destruct (decide (py_strip sm (typed inp) = "")); [by repeat split|].
  destruct (decide (py_lower sm (py_strip sm (typed inp)) = "exit")); [by repeat split|].
  destruct (decide (py_lower sm (py_strip sm (typed inp)) = "view")).
  { destruct (send_server_view (server inp)) as [err|[content|]]; simpl;
      repeat split; auto; discriminate. }
  destruct (String.prefix "post " _) eqn:Hpre; [|by repeat split].
  destruct Hnp. by repeat split.
Qed.


End cli_facts.

(** X16: only a post takes the critical section.  Over lines none of which
    is a post (blank lines, [exit], [view], unknown commands), the command
    loop never waits, asks the server for nothing but views, and leaves the
    middleware to its listener: the fields end as the connections served
    meanwhile leave them. *)
Theorem cli_without_post (sm : str_methods) (inputs : list cli_input) (st : node) :
  Forall (fun inp => ¬ is_post sm inp) inputs ->
  (cli_loop sm inputs st).1.1 ≠ Waiting
  /\ Forall (fun q => q = ViewRequest) (cli_loop sm inputs st).1.2
  /\ exists conns, (cli_loop sm inputs st).2 = (_listener conns st).2.
Proof.
  intros Hall. revert st. induction Hall as [|inp inputs Hnp _ IH]; intros st.
  { simpl. repeat split; [done..|]. by exists []. }
  cbn [cli_loop].
  destruct (cli_turn_not_post sm inp st Hnp) as (Hst & Hsent & Hend).
  destruct (cli_turn sm inp st) as [[[e|] sent] st1]; simpl in *.
  - repeat split; [congruence|done|]. exists (heard inp). done.
  - destruct (IH st1) as (He & Hs & conns & Hc).
    destruct (cli_loop sm inputs st1) as [[e' sent'] st2]. simpl in *.
    repeat split; [done|by apply Forall_app|].
    exists (heard inp ++ conns). by rewrite listener_app, <-Hst.
Qed.

Lemma cli_without_post_witness :
  let sm := StrMethods (fun s => s) (fun s => s) (fun s => s) in
  let srv := fun _ : server_request =>
    ServerAnswered (ServerReply (Some "OK") (Some "hello") None) in
  let line := fun s conns =>
    CliInput s conns srv "" (fun _ _ => Failed) 0 [] [] (fun _ _ => Failed) in
  let inputs := [line "view" [Decoded (protocol_msg "REQUEST" 5 "B")];
                 line "" []; line "help" []; line "exit" []; line "view" []] in
  let st := init "A" 9101 [Peer "127.0.0.1" 9102 "B"] in
  (cli_loop sm inputs st).1 = (Finished, [ViewRequest])
  /\ request_queue (cli_loop sm inputs st).2 = [(5, "B")]
  /\ Forall (fun q => q = ViewRequest) (cli_loop sm inputs st).1.2.
Proof.
  intros sm srv line inputs st. split; [reflexivity|]. split; [reflexivity|].
  apply (cli_without_post sm inputs st).
  repeat constructor; intros (? & ? & ? & ?); done.
Defined.





(** ** The steps of a removal *)

(** Before its first [get] a removal shows the queue as it found it; after
    its last [put], the queue [_remove_request] leaves. *)
Lemma queue_during_ends (nid : string) (queue : list item) :
  queue_during (Draining 0) nid queue = queue
  /\ queue_during (Rebuilding (length queue)) nid queue = rebuild_without nid queue.
Proof.
  split; [done|]. unfold queue_during, rebuild_without.
  destruct (drain (length queue) queue) as [items rest] eqn:Hrun.
  apply drain_spec in Hrun as [-> Hperm]; [|done].
  rewrite take_ge; [done|].
  etrans; [apply length_filter|]. by rewrite Hperm.
Qed.

(** While it empties the queue, a removal shows what is left after its
    [get]s: a queue from which the smallest records are missing. *)
Lemma queue_during_draining (k : nat) (nid : string) (queue : list item) :
  queue_during (Draining (S k)) nid queue
  = match PriorityQueue.get queue with
    | Some (_, queue') => queue_during (Draining k) nid queue'
    | None => queue
    end.
Proof.
  simpl. destruct queue as [|a q]; [done|]. simpl.
  destruct (PriorityQueue.get (a :: q)) as [[it q']|]; [|done].
  by destruct (drain k q').
Qed.
